(** * compile_shader.py: the shader build script

    A shallow embedding of [src/compile_shader.py] and the properties of
    its two functions, [compile_shader] and [compile_shaders_in_directory].

    Modelling choices.
    - A Python [str] is a [string]; text outside ASCII is held as its
      UTF-8 bytes, so [bytes.decode()] checks that the bytes are
      well-formed UTF-8 and keeps them.
    - The script is effectful: it spawns processes and prints.  Its
      functions are computations in a small monad [io] that threads the
      chronological list of observable events and may end in a Python
      exception.
    - The console is a parameter [console]: from the events so far and
      a line it gives what becomes of the line.  [print] of text the
      encoding rejects raises [UnicodeEncodeError], [print] to a stream
      that is closed or broken raises an [OSError]; neither writes
      anything.
    - The operating system is a parameter [sys]: from the events so far and
      a request it gives what happens to the child process.  Every
      child is taken to terminate ([subprocess.run] has no timeout).
    - [os.walk] is run on a snapshot of the directory tree, with the
      defaults the script uses: top-down, [onerror=None],
      [followlinks=False].  The compiler writes its outputs into
      directories the walk has already listed, under names that end in
      [.spv], so they do not show in the walk.  Paths are joined as
      [posixpath.join] does. *)

From Stdlib.Strings Require Import String Ascii Byte.
From Stdlib Require Import List ZArith NArith Bool Arith Lia.
Import ListNotations.
Local Open Scope list_scope.
Local Open Scope string_scope.

(** ** Strings *)

(** [str.startswith] and [str.endswith] with one candidate. *)
Definition startswith (s pre : string) : bool := String.prefix pre s.

Definition endswith (s suffix : string) : bool :=
  (String.length suffix <=? String.length s)%nat &&
  String.eqb
    (substring (String.length s - String.length suffix) (String.length suffix) s)
    suffix.

(** [str.endswith] with a tuple of candidates: any of them. *)
Definition endswith_any (s : string) (suffixes : list string) : bool :=
  existsb (endswith s) suffixes.

(** [posixpath.join a b]. *)
Definition join (a b : string) : string :=
  if startswith b "/" || String.eqb a "" then b
  else if endswith a "/" then a ++ b
  else a ++ "/" ++ b.

(** ** Bytes and [bytes.decode()] *)

Definition in_range (lo hi : N) (b : byte) : bool :=
  (lo <=? Byte.to_N b)%N && (Byte.to_N b <=? hi)%N.

Definition continuation (b : byte) : bool := in_range 128 191 b.

(** Well-formed UTF-8 (the strict codec: no overlong forms, no
    surrogates, nothing above U+10FFFF).  [fuel] bounds the number of
    characters. *)
Fixpoint utf8_valid_fuel (fuel : nat) (bs : list byte) : bool :=
  match fuel with
  | O => match bs with [] => true | _ => false end
  | S fuel' =>
      match bs with
      | [] => true
      | b0 :: r0 =>
          if in_range 0 127 b0 then utf8_valid_fuel fuel' r0
          else
            match r0 with
            | [] => false
            | b1 :: r1 =>
                if in_range 194 223 b0 then
                  continuation b1 && utf8_valid_fuel fuel' r1
                else
                  match r1 with
                  | [] => false
                  | b2 :: r2 =>
                      if in_range 224 239 b0 then
                        (if in_range 224 224 b0 then in_range 160 191 b1
                         else if in_range 237 237 b0 then in_range 128 159 b1
                         else continuation b1)
                        && continuation b2 && utf8_valid_fuel fuel' r2
                      else
                        match r2 with
                        | [] => false
                        | b3 :: r3 =>
                            in_range 240 244 b0
                            && (if in_range 240 240 b0 then in_range 144 191 b1
                                else if in_range 244 244 b0 then in_range 128 143 b1
                                else continuation b1)
                            && continuation b2 && continuation b3
                            && utf8_valid_fuel fuel' r3
                        end
                  end
            end
      end
  end.

Definition utf8_valid (bs : list byte) : bool :=
  utf8_valid_fuel (List.length bs) bs.

(** Bytes of the ASCII range only. *)
Definition ascii_only (bs : list byte) : bool := forallb (in_range 0 127) bs.

(** Text of the ASCII range only. *)
Definition ascii_text (s : string) : bool := ascii_only (list_byte_of_string s).

(** ** The directory tree *)

(** What [os.scandir] finds under a name. *)
#[warnings="-register-all"]
Inductive node : Type :=
| File
    (* anything that is not reported as a directory *)
| Dir (entries : list (string * node))
    (* a directory and its listing, in [scandir] order *)
| Unwalked (hidden : list (string * node)).
    (* reported as a directory, but the walk gets nothing from it: a
       symbolic link to a directory ([followlinks] is false) or a
       directory whose listing fails ([onerror] is [None]); [hidden]
       is what the directory holds all the same *)

Definition is_dir (n : node) : bool :=
  match n with File => false | _ => true end.

Definition dirs_of (entries : list (string * node)) : list string :=
  map fst (filter (fun e => is_dir (snd e)) entries).

Definition nondirs_of (entries : list (string * node)) : list string :=
  map fst (filter (fun e => negb (is_dir (snd e))) entries).

(** [os.walk top]: one triple [(root, dirs, files)] per directory that can
    be listed, the directory itself before its subdirectories.  A [top]
    that cannot be listed (a file, an unreadable directory) gives
    nothing. *)
Fixpoint walk (top : string) (n : node) {struct n}
  : list (string * list string * list string) :=
  match n with
  | Dir entries =>
      (top, dirs_of entries, nondirs_of entries)
      :: (fix walk_dirs (l : list (string * node)) :=
            match l with
            | [] => []
            | (name, child) :: l' =>
                if is_dir child
                then (walk (join top name) child ++ walk_dirs l')%list
                else walk_dirs l'
            end) entries
  | File => []
  | Unwalked _ => []
  end.

(** The triples of the subdirectories of a listing. *)
Fixpoint walk_dirs (top : string) (l : list (string * node))
  : list (string * list string * list string) :=
  match l with
  | [] => []
  | (name, child) :: l' =>
      if is_dir child
      then (walk (join top name) child ++ walk_dirs top l')%list
      else walk_dirs top l'
  end.

(** Induction on trees, with the hypothesis for every entry of a
    directory. *)
Section NodeInduction.

Variable P : node -> Prop.
Hypothesis P_File : P File.
Hypothesis P_Unwalked :
  forall hidden, Forall (fun e => P (snd e)) hidden -> P (Unwalked hidden).
Hypothesis P_Dir :
  forall entries, Forall (fun e => P (snd e)) entries -> P (Dir entries).

Fixpoint node_induction (n : node) : P n :=
  match n with
  | File => P_File
  | Unwalked hidden =>
      P_Unwalked hidden
        ((fix all (l : list (string * node)) : Forall (fun e => P (snd e)) l :=
            match l with
            | [] => Forall_nil _
            | e :: l' => Forall_cons e (node_induction (snd e)) (all l')
            end) hidden)
  | Dir entries =>
      P_Dir entries
        ((fix all (l : list (string * node)) : Forall (fun e => P (snd e)) l :=
            match l with
            | [] => Forall_nil _
            | e :: l' => Forall_cons e (node_induction (snd e)) (all l')
            end) entries)
  end.

End NodeInduction.

(** ** Trees as a file system has them *)

Fixpoint slash_free (s : string) : bool :=
  match s with
  | EmptyString => true
  | String c s' => negb (Ascii.eqb c "/") && slash_free s'
  end.

(** A name a directory listing can hold: not empty and without the
    separator. *)
Definition plain (name : string) : bool :=
  negb (String.eqb name "") && slash_free name.

(** In every directory the walk lists, the names are plain and no name
    occurs twice. *)
#[warnings="-register-all"]
Inductive well_formed : node -> Prop :=
| wf_File : well_formed File
| wf_Unwalked hidden : well_formed (Unwalked hidden)
| wf_Dir entries :
    NoDup (map fst entries) ->
    (forall name child,
       In (name, child) entries -> plain name = true /\ well_formed child) ->
    well_formed (Dir entries).

(** What [join] puts in front of a plain name. *)
Definition base (top : string) : string :=
  if String.eqb top "" then ""
  else if endswith top "/" then top
  else top ++ "/".

(** The matched files of a tree by their paths from its root. *)
Fixpoint rel_paths (n : node) : list string :=
  match n with
  | Dir entries =>
      (filter (fun file => endswith_any file
                 [".vert"; ".frag"; ".comp"; ".geom"; ".tesc"; ".tese"])
              (nondirs_of entries)
       ++ (fix rel_dirs (l : list (string * node)) : list string :=
             match l with
             | [] => []
             | (name, child) :: l' =>
                 if is_dir child
                 then (map (String.append (name ++ "/")) (rel_paths child)
                       ++ rel_dirs l')%list
                 else rel_dirs l'
             end) entries)%list
  | File => []
  | Unwalked _ => []
  end.

Fixpoint rel_dirs (l : list (string * node)) : list string :=
  match l with
  | [] => []
  | (name, child) :: l' =>
      if is_dir child
      then (map (String.append (name ++ "/")) (rel_paths child) ++ rel_dirs l')%list
      else rel_dirs l'
  end.

(** ** Processes, exceptions and events *)

(** The [stdout=] and [stderr=] arguments of [subprocess.run]. *)
Inductive redirect : Type :=
| PIPE     (* captured in memory *)
| Inherit. (* the default, [None]: the parent's stream *)

(** A call of [subprocess.run]. *)
Record run_request : Type := mk_request {
  args : list string;
  check : bool;
  stdout : redirect;
  stderr : redirect
}.

Inductive os_error : Type :=
| FileNotFoundError
| PermissionError
| BrokenPipeError
| OtherOSError.

(** What becomes of the child process. *)
Inductive run_outcome : Type :=
| Exited (returncode : Z) (out err : list byte)
| NotStarted (e : os_error).

Inductive exn : Type :=
| CalledProcessError (returncode : Z) (cmd : list string)
    (output stderr_text : option (list byte))
| OSError (e : os_error)
| UnicodeDecodeError
| UnicodeEncodeError
| AttributeError.

Record CompletedProcess : Type := mk_completed {
  cp_args : list string;
  cp_returncode : Z;
  cp_stdout : option (list byte);
  cp_stderr : option (list byte)
}.

Inductive event : Type :=
| Popen (r : run_request)   (* a child process is asked for and waited for *)
| Printed (line : string).  (* a line on the console *)

Definition system : Type := list event -> run_request -> run_outcome.

(** What becomes of a line given to [print]. *)
Inductive write_outcome : Type :=
| Written
| NotEncodable                 (* the encoding of the console rejects it *)
| WriteFailed (e : os_error).  (* the stream is closed or broken *)

Definition display : Type := list event -> string -> write_outcome.

(** The exception [print] raises for an outcome, if any. *)
Definition print_error (w : write_outcome) : option exn :=
  match w with
  | Written => None
  | NotEncodable => Some UnicodeEncodeError
  | WriteFailed e => Some (OSError e)
  end.

(** ** The monad *)

Inductive result (A : Type) : Type :=
| Returned (a : A)
| Raised (e : exn).
Arguments Returned {A} a.
Arguments Raised {A} e.

(** A computation takes the events so far (oldest first) and gives its
    result and the events extended. *)
Definition io (A : Type) : Type := list event -> result A * list event.

Definition ret {A} (a : A) : io A := fun tr => (Returned a, tr).

Definition raise {A} (e : exn) : io A := fun tr => (Raised e, tr).

Definition bind {A B} (c : io A) (k : A -> io B) : io B :=
  fun tr =>
    match c tr with
    | (Returned a, tr') => k a tr'
    | (Raised e, tr') => (Raised e, tr')
    end.

Notation "x <- c ;; k" := (bind c (fun x => k))
  (at level 61, c at next level, right associativity).
Notation "c ;; k" := (bind c (fun _ => k))
  (at level 61, right associativity).

(** [try: body except subprocess.CalledProcessError as e: handler e]. *)
Definition try_except_CalledProcessError {A}
  (body : io A) (handler : exn -> io A) : io A :=
  fun tr =>
    match body tr with
    | (Raised (CalledProcessError rc cmd o e), tr') =>
        handler (CalledProcessError rc cmd o e) tr'
    | other => other
    end.

(** [for x in l: body x]. *)
Fixpoint for_each {A} (l : list A) (body : A -> io unit) : io unit :=
  match l with
  | [] => ret tt
  | x :: l' => body x ;; for_each l' body
  end.

(** [b.decode()] on the captured bytes [b]; on [None] the attribute
    lookup fails. *)
Definition decode (b : option (list byte)) : io string :=
  match b with
  | None => raise AttributeError
  | Some bs =>
      if utf8_valid bs then ret (string_of_list_byte bs)
      else raise UnicodeDecodeError
  end.

(** [e.stderr] of a [CalledProcessError]. *)
Definition exn_stderr (e : exn) : option (list byte) :=
  match e with
  | CalledProcessError _ _ _ err => err
  | _ => None
  end.

Definition capture (r : redirect) (bs : list byte) : option (list byte) :=
  match r with PIPE => Some bs | Inherit => None end.

(** ** The script *)

Section Script.

(** The operating system's answer to each process request. *)
Variable sys : system.

(** The console's answer to each line. *)
Variable console : display.

(** [print(line)]: the text is encoded for the console and written with
    its newline; when that fails, nothing is written and the error is
    raised. *)
Definition print (line : string) : io unit :=
  fun tr =>
    match console tr line with
    | Written => (Returned tt, (tr ++ [Printed line])%list)
    | NotEncodable => (Raised UnicodeEncodeError, tr)
    | WriteFailed e => (Raised (OSError e), tr)
    end.

(** What the path given to [os.walk] leads to, if anything.  A path
    is followed through symbolic links: a link to a directory, given
    as the top, leads to the directory. *)
Variable fs : string -> option node.

(** [subprocess.run(args, check=..., stdout=..., stderr=...)]: start
    the child, wait for it, and with [check] turn a non-zero return
    code into [CalledProcessError]. *)
Definition subprocess_run (r : run_request) : io CompletedProcess :=
  fun tr =>
    let tr' := (tr ++ [Popen r])%list in
    match sys tr r with
    | NotStarted e => (Raised (OSError e), tr')
    | Exited rc out err =>
        let o := capture (stdout r) out in
        let e := capture (stderr r) err in
        if check r && negb (rc =? 0)%Z
        then (Raised (CalledProcessError rc (args r) o e), tr')
        else (Returned (mk_completed (args r) rc o e), tr')
    end.

Definition os_walk (top : string)
  : list (string * list string * list string) :=
  match fs top with
  | Some n => walk top n
  | None => []
  end.

Definition compile_shader (shader_path output_path : string) : io unit :=
  try_except_CalledProcessError
    (subprocess_run
       (mk_request ["glslangValidator"; "-V"; shader_path; "-o"; output_path]
                   true PIPE PIPE) ;;
     print ("Compiled " ++ shader_path ++ " -> " ++ output_path))
    (fun e =>
       text <- decode (exn_stderr e) ;;
       print ("Failed to compile " ++ shader_path ++ ": " ++ text)).

Definition compile_shaders_in_directory (directory : string) : io unit :=
  for_each (os_walk directory) (fun '(root, _, files) =>
    for_each files (fun file =>
      if endswith_any file [".vert"; ".frag"; ".comp"; ".geom"; ".tesc"; ".tese"]
      then
        let shader_path := join root file in
        let output_path := shader_path ++ ".spv" in
        compile_shader shader_path output_path
      else ret tt)).

(** The [__main__] block. *)
Definition main : io unit :=
  let shader_directory := "shader" in
  compile_shaders_in_directory shader_directory.

End Script.

(** ** What a run shows *)

(** The process requests among the events, oldest first. *)
Fixpoint invocations (tr : list event) : list run_request :=
  match tr with
  | [] => []
  | Popen r :: tr' => r :: invocations tr'
  | Printed _ :: tr' => invocations tr'
  end.

(** The console lines among the events, oldest first. *)
Fixpoint printed (tr : list event) : list string :=
  match tr with
  | [] => []
  | Popen _ :: tr' => printed tr'
  | Printed line :: tr' => line :: printed tr'
  end.

(** The source and output path of a request: third and fifth word of
    the command line. *)
Definition source_of (r : run_request) : string := nth 2 (args r) "".
Definition output_of (r : run_request) : string := nth 4 (args r) "".

(** The source paths handed to the invoker. *)
Definition passed (tr : list event) : list string :=
  map source_of (invocations tr).

(** The request [compile_shader] makes for a source and an output path. *)
Definition request_for (shader_path output_path : string) : run_request :=
  mk_request ["glslangValidator"; "-V"; shader_path; "-o"; output_path]
             true PIPE PIPE.

Definition success_line (shader_path output_path : string) : string :=
  "Compiled " ++ shader_path ++ " -> " ++ output_path.

Definition failure_line (shader_path text : string) : string :=
  "Failed to compile " ++ shader_path ++ ": " ++ text.

(** The events of the work on one matched file: the request, then the
    lines reported for it. *)
Definition call_events (report : string * list string) : list event :=
  Popen (request_for (fst report) (fst report ++ ".spv"))
  :: map Printed (snd report).

(** The six extensions of the script's [endswith] call. *)
Definition extensions : list string :=
  [".vert"; ".frag"; ".comp"; ".geom"; ".tesc"; ".tese"].

(** The matched files in the order the nested loops reach them: the
    loops of [compile_shaders_in_directory] with the call of
    [compile_shader] taken out. *)
Definition matched_in (triples : list (string * list string * list string))
  : list string :=
  flat_map (fun '(root, _, files) =>
              map (join root) (filter (fun file => endswith_any file extensions) files))
           triples.

Definition matched (fs : string -> option node) (directory : string)
  : list string :=
  matched_in (os_walk fs directory).

(** The work on one matched file: the body of the inner loop once the
    test has passed. *)
Definition job (sys : system) (console : display) (p : string)
  : io unit :=
  compile_shader sys console p (p ++ ".spv").

(** ** The words of the specification *)

(** [s] ends with [suffix]. *)
Definition has_suffix (s suffix : string) : Prop :=
  exists pre, s = pre ++ suffix.

(** [sub] occurs in [s]. *)
Definition contains (s sub : string) : Prop :=
  exists pre post, s = pre ++ sub ++ post.

(** A name with one of the six recognized extensions. *)
Definition recognized (name : string) : Prop :=
  exists ext, In ext extensions /\ has_suffix name ext.

(** [file_at top n dir name]: in the tree [n] whose root has the path
    [top], the directory with path [dir], at any depth, holds the file
    [name]; directories the walk does not enter count as well. *)
Inductive file_at : string -> node -> string -> string -> Prop :=
| file_here top entries name :
    In (name, File) entries ->
    file_at top (Dir entries) top name
| file_below top entries sub child dir name :
    In (sub, child) entries ->
    file_at (join top sub) child dir name ->
    file_at top (Dir entries) dir name
| file_hidden_here top hidden name :
    In (name, File) hidden ->
    file_at top (Unwalked hidden) top name
| file_hidden_below top hidden sub child dir name :
    In (sub, child) hidden ->
    file_at (join top sub) child dir name ->
    file_at top (Unwalked hidden) dir name.

(** [p] is the path of a file with a recognized name somewhere under
    [directory]. *)
Definition shader_file_under (fs : string -> option node)
  (directory p : string) : Prop :=
  exists n dir name,
    fs directory = Some n /\ file_at directory n dir name /\
    recognized name /\ p = join dir name.

(** [listed_file_at top n dir name]: the same, in the directories the
    walk lists only: the root and, at any depth, the subdirectories
    that can be listed and are not symbolic links. *)
Inductive listed_file_at : string -> node -> string -> string -> Prop :=
| listed_here top entries name :
    In (name, File) entries ->
    listed_file_at top (Dir entries) top name
| listed_below top entries sub child dir name :
    In (sub, child) entries ->
    listed_file_at (join top sub) child dir name ->
    listed_file_at top (Dir entries) dir name.

(** [p] is the path of a file with a recognized name in a directory
    the walk lists under [directory]. *)
Definition listed_shader_file_under (fs : string -> option node)
  (directory p : string) : Prop :=
  exists n dir name,
    fs directory = Some n /\ listed_file_at directory n dir name /\
    recognized name /\ p = join dir name.

(** ** Properties of a run, in the specification's words *)

(** A run of the script from a fresh console. *)
Definition run_result (sys : system) (console : display)
  (fs : string -> option node) (directory : string) : result unit :=
  fst (compile_shaders_in_directory sys console fs directory []).

Definition run_trace (sys : system) (console : display)
  (fs : string -> option node) (directory : string) : list event :=
  snd (compile_shaders_in_directory sys console fs directory []).

(** The paths passed to the invoker are exactly the shader files under
    the directory. *)
Definition passes_exactly_shader_files (sys : system)
  (console : display)
  (fs : string -> option node) (directory : string) : Prop :=
  forall p,
    In p (passed (run_trace sys console fs directory))
    <-> shader_file_under fs directory p.

(** One invocation for every matched file, in sequence. *)
Definition invokes_each_once (sys : system) (console : display)
  (fs : string -> option node) (directory : string) : Prop :=
  invocations (run_trace sys console fs directory)
  = map (fun p => request_for p (p ++ ".spv")) (matched fs directory).

(** The invocation did not succeed: the child could not be started or
    left with a non-zero status. *)
Definition failed (o : run_outcome) : Prop :=
  match o with
  | Exited rc _ _ => rc <> 0%Z
  | NotStarted _ => True
  end.

(** The call made one request, printed one diagnostic about [p] and
    returned. *)
Definition reported_failure (sys : system) (console : display)
  (tr : list event) (p o : string) : Prop :=
  exists text,
    compile_shader sys console p o tr
    = (Returned tt,
       (tr ++ [Popen (request_for p o); Printed (failure_line p text)])%list).

(** Every failed invocation is reported and the call returns. *)
Definition contains_every_failure (sys : system)
  (console : display) (tr : list event) (p o : string) : Prop :=
  failed (sys tr (request_for p o)) -> reported_failure sys console tr p o.

(** Why a call of [compile_shader] raised [e]: the child could not be
    started; or it left with a non-zero status and error bytes that are
    not UTF-8; or [print] raised on the line of the call, the success
    line after a status of zero or the diagnostic after another. *)
Definition raised_because (sys : system) (console : display)
  (tr : list event) (p o : string) (e : exn) : Prop :=
  (exists oe, e = OSError oe /\ sys tr (request_for p o) = NotStarted oe)
  \/ (e = UnicodeDecodeError
      /\ exists rc out err,
           sys tr (request_for p o) = Exited rc out err
           /\ rc <> 0%Z /\ utf8_valid err = false)
  \/ (exists line,
        ((exists out err,
            sys tr (request_for p o) = Exited 0 out err
            /\ line = success_line p o)
         \/ (exists rc out err,
               sys tr (request_for p o) = Exited rc out err
               /\ rc <> 0%Z /\ utf8_valid err = true
               /\ line = failure_line p (string_of_list_byte err)))
        /\ print_error (console (tr ++ [Popen (request_for p o)])%list line)
           = Some e).

(** ** Systems, consoles and trees used in the examples *)

(** A console with the strict UTF-8 encoding: it takes the text that is
    well-formed UTF-8. *)
Definition utf8_console : display :=
  fun _ line =>
    if utf8_valid (list_byte_of_string line) then Written else NotEncodable.

(** A console whose error handler replaces what the encoding rejects
    (as with [errors="replace"] or [errors="backslashreplace"]): it
    takes every line. *)
Definition lenient_console : display := fun _ _ => Written.

(** A console with the ASCII encoding. *)
Definition ascii_console : display :=
  fun _ line => if ascii_text line then Written else NotEncodable.

(** Standard output is a pipe whose reader has gone. *)
Definition closed_pipe : display := fun _ _ => WriteFailed BrokenPipeError.

(** No compiler on the search path. *)
Definition missing_compiler : system := fun _ _ => NotStarted FileNotFoundError.

(** A compiler that may not be executed. *)
Definition forbidden_compiler : system := fun _ _ => NotStarted PermissionError.

(** A stub that always exits with [rc] and writes [err] to its error
    stream. *)
Definition stub (rc : Z) (err : list byte) : system :=
  fun _ _ => Exited rc [] err.

Definition ERR : list byte := list_byte_of_string "ERR".

(** A compiler that rejects the sources whose path ends in [.frag]. *)
Definition picky_compiler : system :=
  fun _ r =>
    if endswith (source_of r) ".frag" then Exited 1 [] ERR else Exited 0 [] [].

(** [path] leads to [n]; nothing else exists. *)
Definition only (path : string) (n : node) : string -> option node :=
  fun p => if String.eqb p path then Some n else None.

(** The tree of the specification's scenario: [a/x.vert], [a/b/y.frag],
    [a/b/z.txt]. *)
Definition scenario : node :=
  Dir [("a", Dir [("x.vert", File);
                  ("b", Dir [("y.frag", File); ("z.txt", File)])])].

(** Two shaders side by side. *)
Definition two_shaders : node :=
  Dir [("a.frag", File); ("b.vert", File)].

(** A shader beside a directory that cannot be listed and holds
    another. *)
Definition locked_tree : node :=
  Dir [("a.vert", File); ("locked", Unwalked [("l.frag", File)])].

(** A file name that is not UTF-8: the byte 0xFF, then [.vert]. *)
Definition unencodable_name : string := String (ascii_of_byte xff) ".vert".

(** Two shaders, the first with that name. *)
Definition unencodable_tree : node :=
  Dir [(unencodable_name, File); ("b.vert", File)].

(** A shader, a subdirectory with a shader, and a symbolic link to a
    directory with a shader. *)
Definition linked_tree : node :=
  Dir [("top.vert", File);
       ("sub", Dir [("s.frag", File)]);
       ("lnk", Unwalked [("a.vert", File)])].

(** The paths of that tree; the link, given as a path of its own, leads
    to the directory it points to. *)
Definition linked_fs : string -> option node :=
  fun path =>
    if String.eqb path "shader" then Some linked_tree
    else if String.eqb path "shader/sub" then Some (Dir [("s.frag", File)])
    else if String.eqb path "shader/lnk" then Some (Dir [("a.vert", File)])
    else None.

(** Upper case, a bare extension, a double extension, a linked
    directory with a shader's name. *)
Definition odd_names : node :=
  Dir [("X.VERT", File); (".vert", File); ("a.tar.vert", File);
       ("d.comp", Unwalked []); ("vert", File)].

(** ** What the script looks at *)


(** The subdirectories of a listing that the walk enters. *)
Definition walked_dirs_of (entries : list (string * node)) : list string :=
  map fst (filter (fun e => match snd e with Dir _ => true | _ => false end)
                  entries).

(** The tree without the files whose names the test rejects. *)
Fixpoint shaders_only (n : node) : node :=
  match n with
  | Dir entries =>
      Dir ((fix prune (l : list (string * node)) : list (string * node) :=
              match l with
              | [] => []
              | (name, child) :: l' =>
                  if is_dir child then (name, shaders_only child) :: prune l'
                  else if endswith_any name
                            [".vert"; ".frag"; ".comp"; ".geom"; ".tesc"; ".tese"]
                       then (name, child) :: prune l'
                       else prune l'
              end) entries)
  | File => File
  | Unwalked hidden => Unwalked hidden
  end.

Fixpoint prune (l : list (string * node)) : list (string * node) :=
  match l with
  | [] => []
  | (name, child) :: l' =>
      if is_dir child then (name, shaders_only child) :: prune l'
      else if endswith_any name
                [".vert"; ".frag"; ".comp"; ".geom"; ".tesc"; ".tese"]
           then (name, child) :: prune l'
           else prune l'
  end.

(** * Proofs *)

(** ** Strings *)

Module StringFacts.

Lemma append_assoc (a b c : string) : (a ++ b) ++ c = a ++ (b ++ c).
Proof. induction a as [|x a IH]; simpl; [reflexivity | now rewrite IH]. Qed.

Lemma append_empty_r (a : string) : a ++ "" = a.
Proof. induction a as [|x a IH]; simpl; [reflexivity | now rewrite IH]. Qed.

Lemma length_append (a b : string) :
  String.length (a ++ b) = String.length a + String.length b.
Proof. induction a as [|x a IH]; simpl; [reflexivity | now rewrite IH]. Qed.

Lemma append_same_length (a b c d : string) :
  String.length a = String.length b -> a ++ c = b ++ d -> a = b /\ c = d.
Proof.
  revert b; induction a as [|x a IH]; intros [|y b] Hlen Heq;
    simpl in *; try discriminate.
  - now split.
  - injection Heq as -> Heq. injection Hlen as Hlen.
    destruct (IH b Hlen Heq) as [-> ->]. now split.
Qed.

(** Appending is injective in its left argument. *)
Lemma append_inj_l (a b c : string) : a ++ c = b ++ c -> a = b.
Proof.
  intros Heq.
  assert (Hlen : String.length a = String.length b).
  { apply (f_equal String.length) in Heq.
    rewrite !length_append in Heq. lia. }
  now destruct (append_same_length a b c c Hlen Heq).
Qed.

Lemma substring_all (s : string) : substring 0 (String.length s) s = s.
Proof. induction s as [|x s IH]; simpl; [reflexivity | now rewrite IH]. Qed.

Lemma substring_append (a b : string) :
  substring (String.length a) (String.length b) (a ++ b) = b.
Proof. induction a as [|x a IH]; simpl; [apply substring_all | exact IH]. Qed.

(** A string splits at every position up to its length. *)
Lemma substring_split (n : nat) (s : string) :
  n <= String.length s ->
  exists pre, s = pre ++ substring n (String.length s - n) s.
Proof.
  revert s; induction n as [|n IH]; intros s Hn.
  - exists "". rewrite Nat.sub_0_r, substring_all. reflexivity.
  - destruct s as [|x s]; simpl in Hn; [lia|].
    destruct (IH s) as [pre Hpre]; [lia|].
    exists (String x pre). simpl. now rewrite <- Hpre.
Qed.

Lemma endswith_append (pre suffix : string) :
  endswith (pre ++ suffix) suffix = true.
Proof.
  unfold endswith. rewrite length_append.
  replace (String.length pre + String.length suffix - String.length suffix)
    with (String.length pre) by lia.
  rewrite substring_append, String.eqb_refl.
  rewrite andb_true_r. apply Nat.leb_le. lia.
Qed.

(** [endswith] decides [has_suffix]. *)
Lemma endswith_spec (s suffix : string) :
  endswith s suffix = true <-> has_suffix s suffix.
Proof.
  split.
  - unfold endswith. intros H. apply andb_true_iff in H as [Hle Heq].
    apply Nat.leb_le in Hle. apply String.eqb_eq in Heq.
    destruct (substring_split (String.length s - String.length suffix) s)
      as [pre Hpre]; [lia|].
    exists pre.
    replace (String.length s - (String.length s - String.length suffix))
      with (String.length suffix) in Hpre by lia.
    now rewrite Heq in Hpre.
  - intros [pre ->]. apply endswith_append.
Qed.

Lemma endswith_any_spec (s : string) (l : list string) :
  endswith_any s l = true <-> exists suffix, In suffix l /\ has_suffix s suffix.
Proof.
  unfold endswith_any. rewrite existsb_exists.
  split; intros [x [Hin H]]; exists x; split; auto; now apply endswith_spec.
Qed.

(** The script's test is the specification's [recognized]. *)
Lemma recognized_spec (name : string) :
  endswith_any name extensions = true <-> recognized name.
Proof. apply endswith_any_spec. Qed.

Lemma has_suffix_append (a s suffix : string) :
  has_suffix s suffix -> has_suffix (a ++ s) suffix.
Proof.
  intros [pre ->]. exists (a ++ pre). now rewrite append_assoc.
Qed.

(** The last component of a joined path is the name joined. *)
Lemma join_suffix (a b : string) : has_suffix (join a b) b.
Proof.
  unfold join.
  destruct (startswith b "/" || String.eqb a "").
  - now exists "".
  - destruct (endswith a "/").
    + now exists a.
    + exists (a ++ "/"). now rewrite append_assoc.
Qed.

Lemma has_suffix_trans (s t u : string) :
  has_suffix s t -> has_suffix t u -> has_suffix s u.
Proof. intros [p ->] H. now apply has_suffix_append. Qed.

End StringFacts.

(** ** The walk *)

Module WalkFacts.
Import StringFacts.

Lemma walk_Dir (top : string) (entries : list (string * node)) :
  walk top (Dir entries)
  = (top, dirs_of entries, nondirs_of entries) :: walk_dirs top entries.
Proof.
  simpl. f_equal.
  induction entries as [|[name child] l IH]; simpl; [reflexivity|].
  now rewrite IH.
Qed.

Lemma matched_in_app l1 l2 :
  matched_in (l1 ++ l2) = (matched_in l1 ++ matched_in l2)%list.
Proof. unfold matched_in. apply flat_map_app. Qed.

Lemma in_nondirs_of (name : string) (entries : list (string * node)) :
  In name (nondirs_of entries) <-> In (name, File) entries.
Proof.
  unfold nondirs_of. rewrite in_map_iff. split.
  - intros [[nm c] [Hfst Hin]]. simpl in Hfst. subst nm.
    apply filter_In in Hin as [Hin Hc]. simpl in Hc.
    destruct c; simpl in Hc; try discriminate. exact Hin.
  - intros Hin. exists (name, File). split; [reflexivity|].
    apply filter_In. now split.
Qed.

(** The subdirectories' triples come from some entry's walk. *)
Lemma in_matched_walk_dirs (top p : string) (l : list (string * node)) :
  In p (matched_in (walk_dirs top l)) <->
  exists sub child,
    In (sub, child) l /\ In p (matched_in (walk (join top sub) child)).
Proof.
  induction l as [|[name child] l IH]; simpl.
  - split; [intros [] | intros (? & ? & [] & _)].
  - assert (Hstep :
      In p (matched_in (if is_dir child
                        then (walk (join top name) child ++ walk_dirs top l)%list
                        else walk_dirs top l)) <->
      In p (matched_in (walk (join top name) child))
      \/ In p (matched_in (walk_dirs top l))).
    { destruct child; simpl is_dir; cbv iota.
      - simpl. tauto.
      - rewrite matched_in_app, in_app_iff. tauto.
      - rewrite matched_in_app, in_app_iff. tauto. }
    rewrite Hstep, IH. split.
    + intros [H | (sub & c & Hin & H)].
      * exists name, child. auto.
      * exists sub, c. auto.
    + intros (sub & c & [Heq | Hin] & H).
      * injection Heq as -> ->. now left.
      * right. exists sub, c. auto.
Qed.

(** The loops reach exactly the files of the tree with a recognized
    name. *)
Lemma in_matched_walk (n : node) :
  forall top p,
    In p (matched_in (walk top n)) <->
    exists dir name,
      listed_file_at top n dir name /\ recognized name /\ p = join dir name.
Proof.
  induction n as [|hidden _|entries IH] using node_induction; intros top p.
  - simpl. split; [intros [] | intros (? & ? & H & _); inversion H].
  - simpl. split; [intros [] | intros (? & ? & H & _); inversion H].
  - rewrite walk_Dir.
    change (matched_in ((top, dirs_of entries, nondirs_of entries)
                          :: walk_dirs top entries))
      with (map (join top)
              (filter (fun file => endswith_any file extensions)
                 (nondirs_of entries))
            ++ matched_in (walk_dirs top entries))%list.
    rewrite in_app_iff, in_map_iff, in_matched_walk_dirs.
    rewrite Forall_forall in IH.
    split.
    + intros [(name & <- & Hin) | (sub & child & Hin & Hp)].
      * apply filter_In in Hin as [Hin Hrec].
        exists top, name. split; [|split; [now apply recognized_spec | reflexivity]].
        apply listed_here. now apply in_nondirs_of.
      * apply (IH (sub, child) Hin) in Hp as (dir & name & Hat & Hrec & ->).
        exists dir, name. split; [|now split].
        now apply listed_below with sub child.
    + intros (dir & name & Hat & Hrec & ->).
      inversion Hat; subst.
      * left. exists name. split; [reflexivity|].
        apply filter_In. split; [now apply in_nondirs_of | now apply recognized_spec].
      * right. exists sub, child. split; [assumption|].
        apply (IH (sub, child)); [assumption|].
        exists dir, name. now split.
Qed.

(** [matched] lists the shader files under the directory, and only
    them. *)
Lemma in_matched (fs : string -> option node) (directory p : string) :
  In p (matched fs directory) <-> listed_shader_file_under fs directory p.
Proof.
  unfold matched, os_walk, listed_shader_file_under.
  destruct (fs directory) as [n|].
  - rewrite in_matched_walk. split.
    + intros (dir & name & H). exists n, dir, name. now split.
    + intros (n' & dir & name & Heq & H). injection Heq as <-.
      exists dir, name. exact H.
  - simpl. split; [intros [] | intros (? & ? & ? & Heq & _); discriminate].
Qed.

(** Every matched path ends with one of the six extensions. *)
Lemma matched_recognized (fs : string -> option node) (directory p : string) :
  In p (matched fs directory) -> recognized p.
Proof.
  intros H. apply in_matched in H as (n & dir & name & _ & _ & Hrec & ->).
  destruct Hrec as (ext & Hin & Hsuf).
  exists ext. split; [assumption|].
  apply has_suffix_trans with name; [apply join_suffix | assumption].
Qed.

End WalkFacts.

(** ** Paths in a well-formed tree *)

Module PathFacts.
Import StringFacts WalkFacts.

Lemma slash_free_append (a b : string) :
  slash_free (a ++ b) = slash_free a && slash_free b.
Proof.
  induction a as [|c a IH]; simpl; [reflexivity|].
  now rewrite IH, andb_assoc.
Qed.

Lemma plain_nonempty (name : string) : plain name = true -> name <> "".
Proof.
  unfold plain. intros H. apply andb_true_iff in H as [H _].
  apply negb_true_iff in H. now apply String.eqb_neq.
Qed.

Lemma plain_slash_free (name : string) : plain name = true -> slash_free name = true.
Proof. unfold plain. intros H. now apply andb_true_iff in H as [_ H]. Qed.

(** A string with the separator in it is not slash free. *)
Lemma slash_free_separator (a r : string) : slash_free (a ++ "/" ++ r) = false.
Proof.
  rewrite slash_free_append. simpl. apply andb_false_r.
Qed.

(** The part before the first separator is determined. *)
Lemma first_component (a b r1 r2 : string) :
  slash_free a = true -> slash_free b = true ->
  a ++ "/" ++ r1 = b ++ "/" ++ r2 -> a = b.
Proof.
  revert b; induction a as [|c a IH]; intros [|d b] Ha Hb Heq; simpl in *.
  - reflexivity.
  - injection Heq as <- _. discriminate Hb.
  - injection Heq as -> _. discriminate Ha.
  - injection Heq as -> Heq.
    apply andb_true_iff in Ha as [_ Ha]. apply andb_true_iff in Hb as [_ Hb].
    f_equal. now apply IH.
Qed.

Lemma append_inj_r (a x y : string) : a ++ x = a ++ y -> x = y.
Proof.
  induction a as [|c a IH]; simpl; [auto|].
  intros H. injection H as H. now apply IH.
Qed.

(** A string that is not empty has a last character. *)
Lemma last_character (s : string) :
  s <> "" -> exists s' c, s = s' ++ String c "".
Proof.
  induction s as [|c s IH]; intros H; [now destruct H|].
  destruct s as [|d s].
  - now exists "", c.
  - destruct IH as (s' & e & Heq); [discriminate|].
    exists (String c s'), e. simpl. now rewrite <- Heq.
Qed.

Lemma plain_no_trailing_separator (b name : string) :
  plain name = true -> endswith (b ++ name) "/" = false.
Proof.
  intros Hplain. destruct (endswith (b ++ name) "/") eqn:E; [|reflexivity].
  apply endswith_spec in E as [pre Hpre].
  destruct (last_character name (plain_nonempty _ Hplain)) as (s' & c & ->).
  rewrite <- append_assoc in Hpre.
  assert (Hlen : String.length (b ++ s') = String.length pre).
  { apply (f_equal String.length) in Hpre.
    rewrite !length_append in Hpre. simpl in Hpre. rewrite length_append. lia. }
  destruct (append_same_length _ _ _ _ Hlen Hpre) as [_ Hc].
  injection Hc as ->.
  apply plain_slash_free in Hplain.
  rewrite slash_free_append in Hplain. simpl in Hplain.
  rewrite andb_false_r in Hplain. discriminate Hplain.
Qed.

Lemma nonempty_append (b name : string) : name <> "" -> String.eqb (b ++ name) "" = false.
Proof.
  intros H. apply String.eqb_neq. intros Heq.
  apply (f_equal String.length) in Heq. rewrite length_append in Heq.
  destruct name; [now apply H | simpl in Heq; lia].
Qed.

(** Joining a plain name puts the base of the directory before it. *)
Lemma join_plain (top name : string) :
  plain name = true -> join top name = base top ++ name.
Proof.
  intros Hplain. unfold join, base.
  assert (Hstart : startswith name "/" = false).
  { destruct name as [|c name]; [discriminate Hplain|].
    apply plain_slash_free in Hplain. simpl in Hplain.
    apply andb_true_iff in Hplain as [Hc _]. apply negb_true_iff in Hc.
    unfold startswith. cbn [prefix].
    destruct (ascii_dec "/" c) as [<-|]; [|reflexivity].
    rewrite Ascii.eqb_refl in Hc. discriminate Hc. }
  rewrite Hstart. simpl.
  destruct (String.eqb top ""); [reflexivity|].
  destruct (endswith top "/"); [reflexivity|].
  now rewrite append_assoc.
Qed.

Lemma base_join (top sub : string) :
  plain sub = true -> base (join top sub) = base top ++ sub ++ "/".
Proof.
  intros Hplain. rewrite (join_plain _ _ Hplain). unfold base at 1.
  rewrite (nonempty_append _ _ (plain_nonempty _ Hplain)).
  rewrite (plain_no_trailing_separator _ _ Hplain).
  apply append_assoc.
Qed.

Lemma rel_paths_Dir (entries : list (string * node)) :
  rel_paths (Dir entries)
  = (filter (fun file => endswith_any file extensions) (nondirs_of entries)
     ++ rel_dirs entries)%list.
Proof.
  reflexivity.
Qed.

Lemma in_nondirs_name (name : string) (entries : list (string * node)) :
  In name (nondirs_of entries) -> In (name, File) entries.
Proof. apply in_nondirs_of. Qed.

Lemma matched_in_walk_dirs_rel (top : string) (l : list (string * node)) :
  (forall name child,
     In (name, child) l ->
     plain name = true
     /\ forall top', matched_in (walk top' child)
                     = map (String.append (base top')) (rel_paths child)) ->
  matched_in (walk_dirs top l) = map (String.append (base top)) (rel_dirs l).
Proof.
  induction l as [|[name child] l IHl]; intros H; [reflexivity|].
  assert (Hl : matched_in (walk_dirs top l)
               = map (String.append (base top)) (rel_dirs l)).
  { apply IHl. intros nm c Hin. apply H. now right. }
  simpl. destruct (is_dir child); [|exact Hl].
  destruct (H name child (or_introl eq_refl)) as [Hplain Hchild].
  rewrite matched_in_app, map_app, Hl, Hchild. f_equal.
  rewrite (base_join _ _ Hplain), map_map.
  apply map_ext. intros r. now rewrite !append_assoc.
Qed.

(** In a well-formed tree every matched path is the base of the root
    followed by the path from the root. *)
Lemma matched_in_walk_rel (n : node) :
  well_formed n ->
  forall top,
    matched_in (walk top n) = map (String.append (base top)) (rel_paths n).
Proof.
  induction n as [|hidden _|entries IH] using node_induction; intros Hwf top;
    [reflexivity | reflexivity |].
  inversion Hwf as [| |entries' Hnodup Hentries]; subst.
  rewrite walk_Dir, rel_paths_Dir, map_app.
  change (matched_in ((top, dirs_of entries, nondirs_of entries)
                        :: walk_dirs top entries))
    with (map (join top)
            (filter (fun file => endswith_any file extensions)
               (nondirs_of entries))
          ++ matched_in (walk_dirs top entries))%list.
  f_equal.
  - apply map_ext_in. intros name Hin.
    apply filter_In in Hin as [Hin _]. apply in_nondirs_name in Hin.
    apply join_plain. now destruct (Hentries _ _ Hin).
  - apply matched_in_walk_dirs_rel. intros name child Hin.
    destruct (Hentries _ _ Hin) as [Hplain Hchild].
    split; [exact Hplain|].
    rewrite Forall_forall in IH. exact (IH (name, child) Hin Hchild).
Qed.

Lemma NoDup_map_injective {A B} (f : A -> B) (l : list A) :
  (forall x y, f x = f y -> x = y) -> NoDup l -> NoDup (map f l).
Proof.
  intros Hinj Hl. induction Hl as [|x l Hx Hl IH]; simpl; constructor; auto.
  intros Hin. apply in_map_iff in Hin as (y & Heq & Hy).
  apply Hinj in Heq. now subst y.
Qed.

Lemma NoDup_map_fst_filter {A B} (f : A * B -> bool) (l : list (A * B)) :
  NoDup (map fst l) -> NoDup (map fst (filter f l)).
Proof.
  induction l as [|e l IH]; simpl; intros H; [constructor|].
  apply NoDup_cons_iff in H as [Hnot Hl].
  destruct (f e); simpl; [|now apply IH].
  constructor; [|now apply IH].
  intros Hin. apply Hnot.
  apply in_map_iff in Hin as (e' & Heq & Hin).
  apply filter_In in Hin as [Hin _].
  apply in_map_iff. now exists e'.
Qed.

(** A path under a subdirectory starts with the subdirectory's name and
    the separator. *)
Lemma in_rel_dirs (x : string) (l : list (string * node)) :
  In x (rel_dirs l) ->
  exists name child r,
    In (name, child) l /\ x = (name ++ "/") ++ r /\ In r (rel_paths child).
Proof.
  induction l as [|[name child] l IH]; simpl; [intros []|].
  intros Hin.
  assert (Hcases : In x (map (String.append (name ++ "/")) (rel_paths child))
                   \/ In x (rel_dirs l)).
  { destruct (is_dir child); [now apply in_app_or | now right]. }
  destruct Hcases as [H|H].
  - apply in_map_iff in H as (r & <- & Hr). exists name, child, r. auto.
  - destruct (IH H) as (nm & c & r & Hin' & Heq & Hr).
    exists nm, c, r. auto.
Qed.

Lemma NoDup_rel_dirs (l : list (string * node)) :
  NoDup (map fst l) ->
  (forall name child,
     In (name, child) l -> plain name = true /\ NoDup (rel_paths child)) ->
  NoDup (rel_dirs l).
Proof.
  induction l as [|[name child] l IH]; simpl; intros Hnames H; [constructor|].
  apply NoDup_cons_iff in Hnames as [Hname Hnames].
  assert (Hl : NoDup (rel_dirs l)).
  { apply IH; [assumption|]. intros nm c Hin. apply H. now right. }
  destruct (is_dir child); [|exact Hl].
  destruct (H name child (or_introl eq_refl)) as [Hplain Hchild].
  apply NoDup_app.
  - apply NoDup_map_injective; [|assumption].
    intros x y. apply append_inj_r.
  - exact Hl.
  - intros x Hx Hx'.
    apply in_map_iff in Hx as (r & <- & _).
    apply in_rel_dirs in Hx' as (nm & c & r' & Hin & Heq & _).
    apply Hname. rewrite !append_assoc in Heq.
    apply first_component in Heq.
    + subst nm. apply in_map_iff. now exists (name, c).
    + now apply plain_slash_free.
    + apply plain_slash_free. apply (H nm c). now right.
Qed.

(** In a well-formed tree no path from the root is listed twice. *)
Lemma NoDup_rel_paths (n : node) : well_formed n -> NoDup (rel_paths n).
Proof.
  induction n as [|hidden _|entries IH] using node_induction; intros Hwf;
    [constructor | constructor |].
  inversion Hwf as [| |entries' Hnodup Hentries]; subst.
  rewrite rel_paths_Dir. rewrite Forall_forall in IH.
  apply NoDup_app.
  - apply NoDup_filter. unfold nondirs_of. now apply NoDup_map_fst_filter.
  - apply NoDup_rel_dirs; [assumption|].
    intros name child Hin. destruct (Hentries _ _ Hin) as [Hplain Hchild].
    split; [assumption | exact (IH (name, child) Hin Hchild)].
  - intros x Hx Hx'.
    apply filter_In in Hx as [Hx _]. apply in_nondirs_name in Hx.
    destruct (Hentries _ _ Hx) as [Hplain _]. apply plain_slash_free in Hplain.
    apply in_rel_dirs in Hx' as (nm & c & r & _ & -> & _).
    rewrite append_assoc, slash_free_separator in Hplain. discriminate Hplain.
Qed.

(** In a well-formed tree no path is matched twice. *)
Lemma NoDup_matched (fs : string -> option node) (directory : string) :
  (forall n, fs directory = Some n -> well_formed n) ->
  NoDup (matched fs directory).
Proof.
  intros Hwf. unfold matched, os_walk.
  destruct (fs directory) as [n|]; [|constructor].
  rewrite (matched_in_walk_rel n (Hwf n eq_refl)).
  apply NoDup_map_injective; [|now apply NoDup_rel_paths, Hwf].
  intros x y. apply append_inj_r.
Qed.

Lemma NoDup_firstn {A} (k : nat) (l : list A) : NoDup l -> NoDup (firstn k l).
Proof.
  intros H. rewrite <- (firstn_skipn k l) in H.
  now apply NoDup_app_remove_r in H.
Qed.

End PathFacts.

(** ** Runs *)

Module RunFacts.
Import StringFacts WalkFacts.

Lemma invocations_app (a b : list event) :
  invocations (a ++ b) = (invocations a ++ invocations b)%list.
Proof.
  induction a as [|[r|line] a IH]; simpl; [reflexivity | now rewrite IH | exact IH].
Qed.

Lemma printed_app (a b : list event) :
  printed (a ++ b) = (printed a ++ printed b)%list.
Proof.
  induction a as [|[r|line] a IH]; simpl; [reflexivity | exact IH | now rewrite IH].
Qed.

Section WithSystem.

Variable sys : system.
Variable console : display.

(** *** One call of [compile_shader] *)

(** The call, step by step: the request, and then what the outcome
    decides. *)
Lemma compile_shader_steps tr p o :
  compile_shader sys console p o tr
  = match sys tr (request_for p o) with
    | NotStarted e =>
        (Raised (OSError e), (tr ++ [Popen (request_for p o)])%list)
    | Exited rc out err =>
        (if (rc =? 0)%Z
         then print console (success_line p o)
         else (text <- decode (Some err) ;;
               print console (failure_line p text)))
          (tr ++ [Popen (request_for p o)])%list
    end.
Proof.
  unfold compile_shader, try_except_CalledProcessError, bind at 1,
    subprocess_run.
  fold (request_for p o). fold (success_line p o).
  destruct (sys tr (request_for p o)) as [rc out err|e]; [|reflexivity].
  simpl check. simpl stdout. simpl stderr. cbv beta iota zeta.
  destruct (rc =? 0)%Z; cbn [andb negb capture].
  - unfold print.
    now destruct (console (tr ++ [Popen (request_for p o)])%list (success_line p o)).
  - reflexivity.
Qed.

(** The child exits with status zero and the line is written. *)
Lemma compile_shader_zero tr p o out err :
  sys tr (request_for p o) = Exited 0 out err ->
  console (tr ++ [Popen (request_for p o)])%list (success_line p o) = Written ->
  compile_shader sys console p o tr
  = (Returned tt, (tr ++ [Popen (request_for p o); Printed (success_line p o)])%list).
Proof.
  intros H Hc. rewrite compile_shader_steps, H. cbn [Z.eqb].
  unfold print. rewrite Hc. now rewrite <- app_assoc.
Qed.

(** The child exits with status zero and [print] raises. *)
Lemma compile_shader_zero_unprinted tr p o out err e :
  sys tr (request_for p o) = Exited 0 out err ->
  print_error (console (tr ++ [Popen (request_for p o)])%list (success_line p o))
  = Some e ->
  compile_shader sys console p o tr
  = (Raised e, (tr ++ [Popen (request_for p o)])%list).
Proof.
  intros H Hc. rewrite compile_shader_steps, H. cbn [Z.eqb].
  unfold print.
  destruct (console (tr ++ [Popen (request_for p o)])%list (success_line p o));
    simpl in Hc; [discriminate Hc | |]; now injection Hc as <-.
Qed.

(** The child exits with another status, its error text decodes and
    the diagnostic is written. *)
Lemma compile_shader_nonzero tr p o rc out err :
  sys tr (request_for p o) = Exited rc out err ->
  rc <> 0%Z ->
  utf8_valid err = true ->
  console (tr ++ [Popen (request_for p o)])%list
    (failure_line p (string_of_list_byte err)) = Written ->
  compile_shader sys console p o tr
  = (Returned tt,
     (tr ++ [Popen (request_for p o);
             Printed (failure_line p (string_of_list_byte err))])%list).
Proof.
  intros H Hrc Hv Hc. rewrite compile_shader_steps, H.
  apply Z.eqb_neq in Hrc. rewrite Hrc.
  unfold bind, decode. rewrite Hv. unfold ret, print. rewrite Hc.
  now rewrite <- app_assoc.
Qed.

(** The child exits with another status, its error text decodes and
    [print] raises. *)
Lemma compile_shader_nonzero_unprinted tr p o rc out err e :
  sys tr (request_for p o) = Exited rc out err ->
  rc <> 0%Z ->
  utf8_valid err = true ->
  print_error (console (tr ++ [Popen (request_for p o)])%list
                 (failure_line p (string_of_list_byte err))) = Some e ->
  compile_shader sys console p o tr
  = (Raised e, (tr ++ [Popen (request_for p o)])%list).
Proof.
  intros H Hrc Hv Hc. rewrite compile_shader_steps, H.
  apply Z.eqb_neq in Hrc. rewrite Hrc.
  unfold bind, decode. rewrite Hv. unfold ret, print.
  destruct (console (tr ++ [Popen (request_for p o)])%list
              (failure_line p (string_of_list_byte err)));
    simpl in Hc; [discriminate Hc | |]; now injection Hc as <-.
Qed.

(** The child exits with another status and its error text is not
    UTF-8. *)
Lemma compile_shader_undecodable tr p o rc out err :
  sys tr (request_for p o) = Exited rc out err ->
  rc <> 0%Z ->
  utf8_valid err = false ->
  compile_shader sys console p o tr
  = (Raised UnicodeDecodeError, (tr ++ [Popen (request_for p o)])%list).
Proof.
  intros H Hrc Hv. rewrite compile_shader_steps, H.
  apply Z.eqb_neq in Hrc. rewrite Hrc.
  unfold bind, decode. now rewrite Hv.
Qed.

(** The child cannot be started. *)
Lemma compile_shader_not_started tr p o e :
  sys tr (request_for p o) = NotStarted e ->
  compile_shader sys console p o tr
  = (Raised (OSError e), (tr ++ [Popen (request_for p o)])%list).
Proof. intros H. now rewrite compile_shader_steps, H. Qed.

Lemma print_error_cases (w : write_outcome) :
  w = Written \/ exists e, print_error w = Some e.
Proof.
  destruct w; [now left | right; now exists UnicodeEncodeError
              | right; now exists (OSError e)].
Qed.

(** A call either returns after its request and one line, or raises
    after its request alone. *)
Lemma compile_shader_cases tr p o :
  (exists line,
     compile_shader sys console p o tr
     = (Returned tt, (tr ++ [Popen (request_for p o); Printed line])%list))
  \/ (exists e,
        compile_shader sys console p o tr
        = (Raised e, (tr ++ [Popen (request_for p o)])%list)
        /\ raised_because sys console tr p o e).
Proof.
  unfold raised_because.
  destruct (sys tr (request_for p o)) as [rc out err|oe] eqn:H.
  - destruct (Z.eq_dec rc 0) as [->|Hrc].
    + destruct (print_error_cases
                  (console (tr ++ [Popen (request_for p o)])%list (success_line p o)))
        as [Hc|(e & Hc)].
      * left. exists (success_line p o). now apply compile_shader_zero with out err.
      * right. exists e.
        split; [now apply compile_shader_zero_unprinted with out err|].
        right; right. exists (success_line p o). split; [|exact Hc].
        left. now exists out, err.
    + destruct (utf8_valid err) eqn:Hv.
      * destruct (print_error_cases
                    (console (tr ++ [Popen (request_for p o)])%list
                       (failure_line p (string_of_list_byte err))))
          as [Hc|(e & Hc)].
        -- left. exists (failure_line p (string_of_list_byte err)).
           now apply compile_shader_nonzero with rc out.
        -- right. exists e.
           split; [now apply compile_shader_nonzero_unprinted with rc out err|].
           right; right. exists (failure_line p (string_of_list_byte err)).
           split; [|exact Hc]. right. now exists rc, out, err.
      * right. exists UnicodeDecodeError.
        split; [now apply compile_shader_undecodable with rc out err|].
        right; left. split; [reflexivity|]. now exists rc, out, err.
  - right. exists (OSError oe).
    split; [now apply compile_shader_not_started|].
    left. now exists oe.
Qed.

(** In every case: one request, then at most one line, and exactly one
    line when the call returns. *)
Lemma compile_shader_shape tr p o :
  exists res lines,
    compile_shader sys console p o tr
    = (res, (tr ++ Popen (request_for p o) :: map Printed lines)%list)
    /\ length lines <= 1
    /\ (res = Returned tt -> length lines = 1).
Proof.
  destruct (compile_shader_cases tr p o) as [(line & H)|(e & H & _)].
  - exists (Returned tt), [line]. rewrite H. simpl. auto.
  - exists (Raised e), []. rewrite H. simpl. repeat split; auto. discriminate.
Qed.

(** *** The loops *)

Lemma for_each_app {A} (l1 l2 : list A) (body : A -> io unit) tr :
  for_each (l1 ++ l2) body tr
  = match for_each l1 body tr with
    | (Returned _, tr1) => for_each l2 body tr1
    | (Raised e, tr1) => (Raised e, tr1)
    end.
Proof.
  revert tr; induction l1 as [|x l1 IH]; intros tr; simpl.
  - reflexivity.
  - unfold bind. destruct (body x tr) as [[[]|e] tr1]; [apply IH | reflexivity].
Qed.

(** A loop with a test in its body is the loop over the elements that
    pass. *)
Lemma for_each_filter {A B} (test : A -> bool) (f : A -> B)
  (body : B -> io unit) (l : list A) tr :
  for_each l (fun x => if test x then body (f x) else ret tt) tr
  = for_each (map f (filter test l)) body tr.
Proof.
  revert tr; induction l as [|x l IH]; intros tr; simpl; [reflexivity|].
  destruct (test x); simpl; unfold bind.
  - destruct (body (f x) tr) as [[[]|e] tr1]; [apply IH | reflexivity].
  - simpl. apply IH.
Qed.

Lemma for_each_triples (triples : list (string * list string * list string)) tr :
  for_each triples (fun '(root, _, files) =>
    for_each files (fun file =>
      if endswith_any file [".vert"; ".frag"; ".comp"; ".geom"; ".tesc"; ".tese"]
      then
        let shader_path := join root file in
        let output_path := shader_path ++ ".spv" in
        compile_shader sys console shader_path output_path
      else ret tt)) tr
  = for_each (matched_in triples) (job sys console) tr.
Proof.
  revert tr; induction triples as [|[[root dirs] files] l IH]; intros tr.
  - reflexivity.
  - change (matched_in ((root, dirs, files) :: l))
      with (map (join root) (filter (fun file => endswith_any file extensions) files)
            ++ matched_in l)%list.
    rewrite for_each_app.
    rewrite <- (for_each_filter (fun file => endswith_any file extensions)
                  (join root) (job sys console) files tr).
    simpl for_each at 1. unfold bind at 1. unfold job at 2.
    match goal with
    | |- match ?c with _ => _ end = match ?d with _ => _ end =>
        change d with c; destruct c as [[[]|e] tr1]
    end; [apply IH | reflexivity].
Qed.

(** The nested loops are one loop over the matched files. *)
Lemma compile_shaders_in_directory_flat fs directory tr :
  compile_shaders_in_directory sys console fs directory tr
  = for_each (matched fs directory) (job sys console) tr.
Proof. unfold compile_shaders_in_directory, matched. apply for_each_triples. Qed.

(** The requests of a loop over matched files: one for each of the first
    [k] files, in order; all of them when the loop returns; and when it
    raises, the file that raised is the last one asked for. *)
Lemma for_each_job_invocations (l : list string) :
  forall tr res tr',
    for_each l (job sys console) tr = (res, tr') ->
    exists k,
      k <= length l
      /\ invocations tr'
         = (invocations tr
            ++ map (fun p => request_for p (p ++ ".spv")) (firstn k l))%list
      /\ (res = Returned tt -> k = length l)
      /\ (forall e, res = Raised e -> 1 <= k).
Proof.
  induction l as [|p l IH]; intros tr res tr' Hrun; simpl in Hrun.
  - injection Hrun as <- <-. exists 0. simpl. rewrite app_nil_r.
    repeat split; auto. discriminate.
  - unfold bind, job at 1 in Hrun.
    destruct (compile_shader_shape tr p (p ++ ".spv"))
      as (r1 & lines & Heq & _ & _).
    rewrite Heq in Hrun.
    assert (Hinv : invocations (tr ++ Popen (request_for p (p ++ ".spv"))
                                  :: map Printed lines)
                   = (invocations tr ++ [request_for p (p ++ ".spv")])%list).
    { rewrite invocations_app. simpl. f_equal. f_equal.
      clear. induction lines; simpl; auto. }
    destruct r1 as [[]|e].
    + apply IH in Hrun as (k & Hk & Hinvs & Hret & Hraise).
      exists (S k). simpl. rewrite Hinvs, Hinv, <- app_assoc. simpl.
      repeat split; [lia | | lia].
      intros H. f_equal. now apply Hret.
    + injection Hrun as <- <-. exists 1. simpl. rewrite Hinv.
      repeat split; [lia | | lia].
      discriminate.
Qed.

(** The events of a loop over matched files come file by file: the
    request for a file, then at most one line about it, and only then
    the next file.  The loop gets through the first [k] files; through
    all of them, with one line each, when it returns. *)
Lemma for_each_job_trace (l : list string) :
  forall tr res tr',
    for_each l (job sys console) tr = (res, tr') ->
    exists k reports,
      tr' = (tr ++ flat_map call_events reports)%list
      /\ map fst reports = firstn k l
      /\ Forall (fun report => length (snd report) <= 1) reports
      /\ (res = Returned tt ->
          k = length l /\ Forall (fun report => length (snd report) = 1) reports).
Proof.
  induction l as [|p l IH]; intros tr res tr' Hrun; simpl in Hrun.
  - injection Hrun as <- <-. exists 0, []. simpl. rewrite app_nil_r. auto.
  - unfold bind, job at 1 in Hrun.
    destruct (compile_shader_shape tr p (p ++ ".spv"))
      as (r1 & lines & Heq & Hle & Hone).
    rewrite Heq in Hrun.
    destruct r1 as [[]|e].
    + apply IH in Hrun as (k & reports & Htr & Hfst & Hall & Hret).
      exists (S k), ((p, lines) :: reports). simpl.
      rewrite Htr, <- app_assoc. simpl. rewrite Hfst.
      repeat split; auto.
      * destruct (Hret H) as [-> _]. reflexivity.
      * destruct (Hret H) as [_ H1]. constructor; auto.
    + injection Hrun as <- <-. exists 1, [(p, lines)]. simpl.
      rewrite app_nil_r. repeat split; auto; discriminate.
Qed.

End WithSystem.

End RunFacts.

(** ** The whole run *)

Module DirectoryFacts.
Import StringFacts WalkFacts RunFacts.

Lemma sources_of_requests (l : list string) :
  map source_of (map (fun p => request_for p (p ++ ".spv")) l) = l.
Proof. induction l as [|p l IH]; simpl; [reflexivity | now rewrite IH]. Qed.

(** A run asks for the first [k] matched files, one request each, in the
    order of the walk; for all of them when it returns. *)
Lemma directory_invocations sys console fs directory res tr :
  compile_shaders_in_directory sys console fs directory [] = (res, tr) ->
  exists k,
    k <= length (matched fs directory)
    /\ invocations tr
       = map (fun p => request_for p (p ++ ".spv")) (firstn k (matched fs directory))
    /\ (res = Returned tt -> k = length (matched fs directory))
    /\ (forall e, res = Raised e -> 1 <= k).
Proof.
  rewrite compile_shaders_in_directory_flat. intros H.
  apply for_each_job_invocations in H as (k & Hk & Hinv & Hret & Hraise).
  exists k. simpl in Hinv. auto.
Qed.

Lemma directory_passed sys console fs directory res tr :
  compile_shaders_in_directory sys console fs directory [] = (res, tr) ->
  exists k,
    passed tr = firstn k (matched fs directory)
    /\ (res = Returned tt -> passed tr = matched fs directory).
Proof.
  intros H. apply directory_invocations in H as (k & Hk & Hinv & Hret & _).
  exists k. unfold passed. rewrite Hinv, sources_of_requests.
  split; [reflexivity|].
  intros Hres. rewrite (Hret Hres). apply firstn_all.
Qed.

Lemma in_firstn {A} (k : nat) (l : list A) (x : A) :
  In x (firstn k l) -> In x l.
Proof.
  revert l; induction k as [|k IH]; intros [|y l]; simpl; try tauto.
  intros [->|H]; [now left | right; now apply IH].
Qed.

(** Whatever a run asks for, it asks with the request of a matched
    file. *)
Lemma directory_request sys console fs directory res tr r :
  compile_shaders_in_directory sys console fs directory [] = (res, tr) ->
  In r (invocations tr) ->
  exists p, In p (matched fs directory) /\ r = request_for p (p ++ ".spv").
Proof.
  intros H Hin. apply directory_invocations in H as (k & _ & Hinv & _).
  rewrite Hinv in Hin. apply in_map_iff in Hin as (p & <- & Hp).
  exists p. split; [now apply in_firstn with k | reflexivity].
Qed.

(** Two suffixes of one string that are equally long are equal. *)
Lemma has_suffix_same_length (s a b : string) :
  has_suffix s a -> has_suffix s b ->
  String.length a = String.length b -> a = b.
Proof.
  intros [p Hp] [q Hq] Hlen. rewrite Hp in Hq.
  assert (Hpq : String.length p = String.length q).
  { apply (f_equal String.length) in Hq. rewrite !length_append in Hq. lia. }
  now destruct (append_same_length p q a b Hpq Hq).
Qed.

(** A file in a directory the walk lists is a file of the tree. *)
Lemma listed_file_is_file top n dir name :
  listed_file_at top n dir name -> file_at top n dir name.
Proof.
  induction 1 as [top entries name Hin | top entries sub child dir name Hin _ IH].
  - now apply file_here.
  - now apply file_below with sub child.
Qed.

Lemma listed_shader_file_is_shader_file fs directory p :
  listed_shader_file_under fs directory p -> shader_file_under fs directory p.
Proof.
  intros (n & dir & name & Hfs & Hat & Hrec & ->).
  exists n, dir, name. repeat split; auto. now apply listed_file_is_file.
Qed.

(** A run returns when every child starts and leaves with status zero
    or with error text that is UTF-8, and the console takes every
    line. *)
Lemma run_returns sys console fs directory :
  (forall tr r,
     match sys tr r with
     | Exited rc _ err => rc = 0%Z \/ utf8_valid err = true
     | NotStarted _ => False
     end) ->
  (forall tr line, console tr line = Written) ->
  run_result sys console fs directory = Returned tt.
Proof.
  intros Hsys Hconsole. unfold run_result.
  rewrite compile_shaders_in_directory_flat.
  generalize (@nil event) as tr.
  induction (matched fs directory) as [|p l IH]; intros tr; [reflexivity|].
  simpl. unfold bind, job at 1.
  specialize (Hsys tr (request_for p (p ++ ".spv"))).
  destruct (compile_shader_cases sys console tr p (p ++ ".spv"))
    as [(line & H)|(e & H & Hcause)].
  - rewrite H. apply IH.
  - exfalso.
    destruct Hcause as [(oe & _ & Hoe)
                       |[(_ & rc & out & err & Hex & Hrc & Hv)
                        |(line & _ & Hc)]].
    + now rewrite Hoe in Hsys.
    + rewrite Hex in Hsys. destruct Hsys as [Hz|Hv']; [now apply Hrc | congruence].
    + rewrite Hconsole in Hc. discriminate Hc.
Qed.

End DirectoryFacts.

(** * The claims *)

Module Claims.
Import StringFacts WalkFacts PathFacts RunFacts DirectoryFacts.

(** ** C1: the files passed to the invoker *)

(** C1, as stated, fails in two ways.  With no compiler on the search
    path and the two shaders [a.frag] and [b.vert] in the directory,
    the first call raises, the run ends, and [shader/b.vert] is never
    passed.  And with a compiler that always succeeds, a shader in a
    subdirectory that cannot be listed, [shader/locked/l.frag], is never
    passed although the run returns. *)
Lemma passes_exactly_shader_files_refuted :
  ~ passes_exactly_shader_files missing_compiler utf8_console
      (only "shader" two_shaders) "shader"
  /\ ~ passes_exactly_shader_files (stub 0 []) utf8_console
         (only "shader" locked_tree) "shader".
Proof.
  split.
  - intros H. destruct (H "shader/b.vert") as [_ Hpassed].
    assert (Hfile : shader_file_under (only "shader" two_shaders) "shader"
                      "shader/b.vert").
    { apply listed_shader_file_is_shader_file, in_matched. vm_compute. auto. }
    apply Hpassed in Hfile. vm_compute in Hfile.
    destruct Hfile as [Heq|[]]. discriminate Heq.
  - intros H. destruct (H "shader/locked/l.frag") as [_ Hpassed].
    assert (Hfile : shader_file_under (only "shader" locked_tree) "shader"
                      "shader/locked/l.frag").
    { exists locked_tree, "shader/locked", "l.frag".
      split; [reflexivity|]. split; [|split; [|reflexivity]].
      - unfold locked_tree.
        apply file_below with "locked" (Unwalked [("l.frag", File)]).
        + right; left; reflexivity.
        + apply (file_hidden_here "shader/locked"). left; reflexivity.
      - apply recognized_spec. reflexivity. }
    apply Hpassed in Hfile. vm_compute in Hfile.
    destruct Hfile as [Heq|[]]. discriminate Heq.
Qed.

(** C1, amended: in every run, each path passed to the invoker is the
    path of a file of the tree, at any depth, whose name ends with one
    of the six extensions, so no file with another name is ever passed;
    and in a run that returns (no call raised) the paths passed are
    exactly the files with such names in the directories the walk
    lists: the directory given and, at any depth, its subdirectories
    that can be listed and are not symbolic links. *)
Theorem passed_are_shader_files sys console fs directory res tr :
  compile_shaders_in_directory sys console fs directory [] = (res, tr) ->
  (forall p, In p (passed tr) ->
             shader_file_under fs directory p
             /\ listed_shader_file_under fs directory p
             /\ recognized p)
  /\ (res = Returned tt ->
      forall p, In p (passed tr) <-> listed_shader_file_under fs directory p).
Proof.
  intros Hrun. destruct (directory_passed _ _ _ _ _ _ Hrun) as (k & Hk & Hall).
  split.
  - intros p Hp. rewrite Hk in Hp. apply in_firstn in Hp.
    split; [now apply listed_shader_file_is_shader_file, in_matched|].
    split; [now apply in_matched | now apply matched_recognized with fs directory].
  - intros Hres p. rewrite (Hall Hres). apply in_matched.
Qed.

Lemma passed_are_shader_files_witness :
  compile_shaders_in_directory picky_compiler utf8_console
    (only "shader" scenario) "shader" []
  = (Returned tt,
     [Popen (request_for "shader/a/x.vert" "shader/a/x.vert.spv");
      Printed "Compiled shader/a/x.vert -> shader/a/x.vert.spv";
      Popen (request_for "shader/a/b/y.frag" "shader/a/b/y.frag.spv");
      Printed "Failed to compile shader/a/b/y.frag: ERR"])
  /\ forall p,
       In p ["shader/a/x.vert"; "shader/a/b/y.frag"]
       <-> listed_shader_file_under (only "shader" scenario) "shader" p.
Proof.
  split; [reflexivity|].
  exact (proj2 (passed_are_shader_files picky_compiler utf8_console
                  (only "shader" scenario) "shader" (Returned tt) _ eq_refl)
           eq_refl).
Defined.

(** ** C2: a compiler that exits with a non-zero status *)

(** C2 at a failing input: the directory holds [a.frag] and [b.vert]
    and the compiler exits with status 1 after writing the single byte
    0xFF to its error stream.  [CalledProcessError] is caught, but
    decoding the captured bytes raises inside the handler: whatever the
    console, no diagnostic is printed, the run ends with
    [UnicodeDecodeError] and [shader/b.vert] is never compiled. *)
Theorem undecodable_error_text_ends_run console :
  compile_shaders_in_directory (stub 1 [xff]) console
    (only "shader" two_shaders) "shader" []
  = (Raised UnicodeDecodeError,
     [Popen (request_for "shader/a.frag" "shader/a.frag.spv")])
  /\ matched (only "shader" two_shaders) "shader" = ["shader/a.frag"; "shader/b.vert"]
  /\ printed (run_trace (stub 1 [xff]) console (only "shader" two_shaders) "shader")
     = [].
Proof. repeat split. Qed.

(** ** C3: the output path *)

(** C3: in every run, every invocation is for a path the walk produced,
    given to the compiler as it is, and its output path is that path
    with [.spv] appended to the whole of it. *)
Theorem output_path_appends_spv sys console fs directory res tr r :
  compile_shaders_in_directory sys console fs directory [] = (res, tr) ->
  In r (invocations tr) ->
  In (source_of r) (matched fs directory)
  /\ output_of r = source_of r ++ ".spv".
Proof.
  intros Hrun Hin.
  destruct (directory_request _ _ _ _ _ _ _ Hrun Hin) as (p & Hp & ->).
  now split.
Qed.

Lemma output_path_appends_spv_witness :
  In (request_for "shader/a/x.vert" "shader/a/x.vert.spv")
     (invocations (run_trace picky_compiler utf8_console
                     (only "shader" scenario) "shader"))
  /\ In "shader/a/x.vert" (matched (only "shader" scenario) "shader")
  /\ "shader/a/x.vert.spv" = "shader/a/x.vert" ++ ".spv".
Proof.
  split; [left; reflexivity|].
  apply (output_path_appends_spv picky_compiler utf8_console
           (only "shader" scenario) "shader"
           (Returned tt) _ (request_for "shader/a/x.vert" "shader/a/x.vert.spv")
           eq_refl).
  left; reflexivity.
Defined.

(** ** C4: the ways an invocation fails *)

(** C4, as stated, fails: with no compiler on the search path the
    invocation of [shader/a.frag] has failed, yet the call prints no
    diagnostic and does not return: [FileNotFoundError] is not a
    [CalledProcessError] and passes the handler by. *)
Lemma contains_every_failure_refuted :
  ~ contains_every_failure missing_compiler utf8_console []
      "shader/a.frag" "shader/a.frag.spv".
Proof.
  intros H. destruct (H I) as [text Heq]. vm_compute in Heq. discriminate Heq.
Qed.

(** C4, amended: let the run have come to the matched file [p] with
    every file before it done.  If the compiler runs and exits with a
    non-zero status, its error text is UTF-8 and the console writes the
    diagnostic, the run prints the diagnostic with that text and goes
    on with the files after [p] as the loop would from there.  If the
    compiler cannot be started (the executable is missing or may not be
    executed), there is no exit status: the run ends there with the
    system's error, without a diagnostic and without touching the files
    after [p]. *)
Theorem failure_containment sys console fs directory before p after tr1 :
  matched fs directory = (before ++ p :: after)%list ->
  for_each before (job sys console) [] = (Returned tt, tr1) ->
  (forall rc out err,
     sys tr1 (request_for p (p ++ ".spv")) = Exited rc out err ->
     rc <> 0%Z ->
     utf8_valid err = true ->
     console (tr1 ++ [Popen (request_for p (p ++ ".spv"))])%list
       (failure_line p (string_of_list_byte err)) = Written ->
     compile_shaders_in_directory sys console fs directory []
     = for_each after (job sys console)
         (tr1 ++ [Popen (request_for p (p ++ ".spv"));
                  Printed (failure_line p (string_of_list_byte err))])%list)
  /\ (forall e,
        sys tr1 (request_for p (p ++ ".spv")) = NotStarted e ->
        compile_shaders_in_directory sys console fs directory []
        = (Raised (OSError e),
           (tr1 ++ [Popen (request_for p (p ++ ".spv"))])%list)).
Proof.
  intros Hsplit Hbefore. split.
  - intros rc out err Hsys Hrc Hv Hc.
    rewrite compile_shaders_in_directory_flat, Hsplit, for_each_app, Hbefore.
    simpl. unfold bind, job at 1.
    now rewrite (compile_shader_nonzero _ _ _ _ _ _ _ _ Hsys Hrc Hv Hc).
  - intros e Hsys.
    rewrite compile_shaders_in_directory_flat, Hsplit, for_each_app, Hbefore.
    simpl. unfold bind, job at 1.
    now rewrite (compile_shader_not_started _ _ _ _ _ _ Hsys).
Qed.

Lemma failure_containment_witness :
  (matched (only "shader" two_shaders) "shader"
   = ([] ++ "shader/a.frag" :: ["shader/b.vert"])%list
   /\ for_each [] (job picky_compiler utf8_console) [] = (Returned tt, []))
  /\ compile_shaders_in_directory picky_compiler utf8_console
       (only "shader" two_shaders) "shader" []
     = (Returned tt,
        [Popen (request_for "shader/a.frag" "shader/a.frag.spv");
         Printed "Failed to compile shader/a.frag: ERR";
         Popen (request_for "shader/b.vert" "shader/b.vert.spv");
         Printed "Compiled shader/b.vert -> shader/b.vert.spv"])
  /\ compile_shaders_in_directory forbidden_compiler utf8_console
       (only "shader" two_shaders) "shader" []
     = (Raised (OSError PermissionError),
        [Popen (request_for "shader/a.frag" "shader/a.frag.spv")]).
Proof.
  split; [split; reflexivity|]. split.
  - apply (proj1 (failure_containment picky_compiler utf8_console
                    (only "shader" two_shaders)
                    "shader" [] "shader/a.frag" ["shader/b.vert"] []
                    eq_refl eq_refl)
             1%Z [] ERR).
    + reflexivity.
    + discriminate.
    + reflexivity.
    + reflexivity.
  - apply (proj2 (failure_containment forbidden_compiler utf8_console
                    (only "shader" two_shaders)
                    "shader" [] "shader/a.frag" ["shader/b.vert"] []
                    eq_refl eq_refl)
             PermissionError).
    reflexivity.
Defined.

(** ** C5: the command line *)

(** C5: a call of [compile_shader] makes one process request, for
    [glslangValidator -V <source> -o <output>] with both streams
    captured and the exit status checked, and whatever it prints comes
    after the request; every request of a run has this form, with the
    source path followed by [.spv] as the output path.  The request is
    answered only when the child is done: [subprocess.run] hands back
    the child's exit status with the bytes of both streams, held in
    memory, or raises [CalledProcessError] with them; and what the call
    does next is decided by that status and by the captured error
    bytes. *)
Theorem invocation_template sys console :
  (forall tr p o,
     exists res lines,
       compile_shader sys console p o tr
       = (res,
          (tr ++ Popen (mk_request ["glslangValidator"; "-V"; p; "-o"; o]
                                   true PIPE PIPE)
              :: map Printed lines)%list))
  /\ (forall fs directory,
        Forall (fun r => exists p,
                  r = mk_request ["glslangValidator"; "-V"; p; "-o"; p ++ ".spv"]
                                 true PIPE PIPE)
               (invocations (run_trace sys console fs directory)))
  /\ (forall tr p o rc out err,
        sys tr (request_for p o) = Exited rc out err ->
        subprocess_run sys
          (mk_request ["glslangValidator"; "-V"; p; "-o"; o] true PIPE PIPE) tr
        = (if (rc =? 0)%Z
           then Returned (mk_completed ["glslangValidator"; "-V"; p; "-o"; o]
                                       rc (Some out) (Some err))
           else Raised (CalledProcessError rc
                          ["glslangValidator"; "-V"; p; "-o"; o]
                          (Some out) (Some err)),
           (tr ++ [Popen (request_for p o)])%list))
  /\ (forall tr p o rc out err,
        sys tr (request_for p o) = Exited rc out err ->
        compile_shader sys console p o tr
        = (if (rc =? 0)%Z
           then print console (success_line p o)
           else (text <- decode (Some err) ;;
                 print console (failure_line p text)))
            (tr ++ [Popen (request_for p o)])%list).
Proof.
  split; [|split; [|split]].
  - intros tr p o.
    destruct (compile_shader_shape sys console tr p o) as (res & lines & H & _).
    exists res, lines. exact H.
  - intros fs directory. apply Forall_forall. intros r Hin.
    unfold run_trace in Hin.
    destruct (compile_shaders_in_directory sys console fs directory [])
      as [res tr] eqn:Hrun.
    destruct (directory_request _ _ _ _ _ _ _ Hrun Hin) as (p & _ & ->).
    exists p. reflexivity.
  - intros tr p o rc out err H.
    unfold subprocess_run. fold (request_for p o). rewrite H. simpl.
    now destruct (rc =? 0)%Z.
  - intros tr p o rc out err H.
    now rewrite compile_shader_steps, H.
Qed.

(** ** C6: the success line *)

(** C6 at a failing input: the directory holds a shader whose name is
    the byte 0xFF followed by [.vert], and [b.vert]; the compiler exits
    with status zero every time; the console has the strict UTF-8
    encoding.  The first shader is compiled, but printing its success
    line raises [UnicodeEncodeError] inside the [try], which the
    handler does not catch: the exit status is zero and no success line
    is printed, the run ends and [shader/b.vert] is never compiled. *)
Theorem unencodable_path_hides_success :
  stub 0 [] [] (request_for ("shader/" ++ unencodable_name)
                            ("shader/" ++ unencodable_name ++ ".spv"))
  = Exited 0 [] []
  /\ compile_shaders_in_directory (stub 0 []) utf8_console
       (only "shader" unencodable_tree) "shader" []
     = (Raised UnicodeEncodeError,
        [Popen (request_for ("shader/" ++ unencodable_name)
                            ("shader/" ++ unencodable_name ++ ".spv"))])
  /\ matched (only "shader" unencodable_tree) "shader"
     = ["shader/" ++ unencodable_name; "shader/b.vert"]
  /\ printed (run_trace (stub 0 []) utf8_console
                (only "shader" unencodable_tree) "shader") = [].
Proof. repeat split. Qed.

(** ** C7: nothing to walk *)

(** C7: when the directory does not exist, or exists and is empty, the
    run makes no request, prints nothing and returns. *)
Theorem nothing_to_walk sys console fs directory :
  fs directory = None \/ fs directory = Some (Dir []) ->
  compile_shaders_in_directory sys console fs directory [] = (Returned tt, [])
  /\ invocations (run_trace sys console fs directory) = []
  /\ printed (run_trace sys console fs directory) = []
  /\ run_result sys console fs directory = Returned tt.
Proof.
  intros H.
  assert (Hrun : compile_shaders_in_directory sys console fs directory []
                 = (Returned tt, [])).
  { unfold compile_shaders_in_directory, os_walk.
    destruct H as [-> | ->]; reflexivity. }
  unfold run_trace, run_result. rewrite Hrun. auto.
Qed.

Lemma nothing_to_walk_witness :
  (only "elsewhere" two_shaders "shader" = None
   \/ only "elsewhere" two_shaders "shader" = Some (Dir []))
  /\ compile_shaders_in_directory picky_compiler utf8_console
       (only "elsewhere" two_shaders) "shader" [] = (Returned tt, []).
Proof.
  split; [left; reflexivity|].
  apply (nothing_to_walk picky_compiler utf8_console
           (only "elsewhere" two_shaders) "shader").
  left; reflexivity.
Defined.

(** ** C8: one output path per source path *)

(** C8: in a run, two requests with different source paths have
    different output paths. *)
Theorem output_paths_distinct sys console fs directory r1 r2 :
  In r1 (invocations (run_trace sys console fs directory)) ->
  In r2 (invocations (run_trace sys console fs directory)) ->
  source_of r1 <> source_of r2 ->
  output_of r1 <> output_of r2.
Proof.
  unfold run_trace.
  destruct (compile_shaders_in_directory sys console fs directory [])
    as [res tr] eqn:Hrun.
  simpl. intros H1 H2 Hne Heq. apply Hne.
  destruct (directory_request _ _ _ _ _ _ _ Hrun H1) as (p & _ & ->).
  destruct (directory_request _ _ _ _ _ _ _ Hrun H2) as (q & _ & ->).
  simpl in *. now apply append_inj_l with ".spv".
Qed.

Lemma output_paths_distinct_witness :
  "shader/a/x.vert" <> "shader/a/b/y.frag"
  /\ "shader/a/x.vert.spv" <> "shader/a/b/y.frag.spv".
Proof.
  assert (Hne : "shader/a/x.vert" <> "shader/a/b/y.frag") by discriminate.
  split; [exact Hne|].
  apply (output_paths_distinct picky_compiler utf8_console
           (only "shader" scenario) "shader"
           (request_for "shader/a/x.vert" "shader/a/x.vert.spv")
           (request_for "shader/a/b/y.frag" "shader/a/b/y.frag.spv")).
  - left; reflexivity.
  - right; left; reflexivity.
  - exact Hne.
Defined.

(** ** C9: one invocation for each file, in sequence *)

(** C9, as stated, fails: with no compiler on the search path and two
    matched files the run makes one request, for the first file; for
    the second there is none. *)
Lemma invokes_each_once_refuted :
  ~ invokes_each_once missing_compiler utf8_console
      (only "shader" two_shaders) "shader".
Proof. intros H. vm_compute in H. discriminate H. Qed.

(** C9, amended: the events of a run come file by file in the order of
    the walk: one request for a matched file, then at most one line
    about it, then the next file; there is no second request for a file,
    after a failure or otherwise.  The run gets through the first [k]
    matched files, and through all of them, each with one request and
    one line, when it returns.  In a tree as a file system has it
    (plain names, none twice in a directory) no path is passed more
    than once, and in a run that returns every shader file in the
    directories the walk lists is passed exactly once. *)
Theorem invoked_once_in_sequence sys console fs directory res tr :
  compile_shaders_in_directory sys console fs directory [] = (res, tr) ->
  (exists k reports,
     tr = flat_map call_events reports
     /\ map fst reports = firstn k (matched fs directory)
     /\ invocations tr
        = map (fun p => request_for p (p ++ ".spv"))
              (firstn k (matched fs directory))
     /\ Forall (fun report => length (snd report) <= 1) reports
     /\ (res = Returned tt ->
         invocations tr
         = map (fun p => request_for p (p ++ ".spv")) (matched fs directory)
         /\ Forall (fun report => length (snd report) = 1) reports))
  /\ ((forall n, fs directory = Some n -> well_formed n) ->
      (forall p, count_occ string_dec (passed tr) p <= 1)
      /\ (res = Returned tt ->
          forall p, listed_shader_file_under fs directory p ->
                    count_occ string_dec (passed tr) p = 1)).
Proof.
  intros Hrun. split.
  - pose proof Hrun as Hflat.
    rewrite compile_shaders_in_directory_flat in Hflat.
    apply for_each_job_trace in Hflat as (k & reports & Htr & Hfst & Hle & Hret).
    simpl in Htr.
    assert (Hinv : invocations tr
                   = map (fun p => request_for p (p ++ ".spv"))
                         (firstn k (matched fs directory))).
    { rewrite <- Hfst, Htr. clear.
      induction reports as [|[p lines] reports IH]; simpl; [reflexivity|].
      rewrite invocations_app, IH. f_equal.
      induction lines; simpl; auto. }
    exists k, reports. repeat split; auto.
    + rewrite Hinv. destruct (Hret H) as [-> _]. now rewrite firstn_all.
    + now destruct (Hret H).
  - intros Hwf. destruct (directory_passed _ _ _ _ _ _ Hrun) as (k & Hk & Hall).
    pose proof (NoDup_matched fs directory Hwf) as Hnodup.
    split.
    + apply NoDup_count_occ. rewrite Hk. now apply NoDup_firstn.
    + intros Hres p Hp. rewrite (Hall Hres).
      apply NoDup_count_occ'; [assumption | now apply in_matched].
Qed.

(** The tree of the scenario is as a file system has it. *)
Lemma scenario_well_formed : well_formed scenario.
Proof.
  unfold scenario.
  repeat (first
    [ apply wf_File
    | apply wf_Dir; [simpl; repeat constructor; simpl; intuition discriminate |]
    | intros name child Hin; simpl in Hin;
      repeat (destruct Hin as [Hin|Hin];
              [injection Hin as <- <-; split; [reflexivity|] |]);
      [.. | destruct Hin] ]).
Qed.

Lemma invoked_once_in_sequence_witness :
  compile_shaders_in_directory picky_compiler utf8_console
    (only "shader" scenario) "shader" []
  = (Returned tt,
     [Popen (request_for "shader/a/x.vert" "shader/a/x.vert.spv");
      Printed "Compiled shader/a/x.vert -> shader/a/x.vert.spv";
      Popen (request_for "shader/a/b/y.frag" "shader/a/b/y.frag.spv");
      Printed "Failed to compile shader/a/b/y.frag: ERR"])
  /\ (forall p,
        count_occ string_dec ["shader/a/x.vert"; "shader/a/b/y.frag"] p <= 1)
  /\ count_occ string_dec ["shader/a/x.vert"; "shader/a/b/y.frag"]
       "shader/a/b/y.frag" = 1.
Proof.
  split; [reflexivity|].
  assert (Hwf : forall n, only "shader" scenario "shader" = Some n -> well_formed n).
  { intros n Heq. injection Heq as <-. exact scenario_well_formed. }
  destruct (invoked_once_in_sequence picky_compiler utf8_console
              (only "shader" scenario) "shader" (Returned tt) _ eq_refl)
    as (_ & Honce).
  destruct (Honce Hwf) as (Hmost & Hexact).
  split; [exact Hmost|].
  apply (Hexact eq_refl). apply in_matched. right; left; reflexivity.
Defined.

(** ** C10: the extension test *)

Lemma extension_length (ext : string) :
  In ext extensions -> String.length ext = 5.
Proof.
  unfold extensions. simpl.
  intros [<-|[<-|[<-|[<-|[<-|[<-|[]]]]]]]; reflexivity.
Qed.

Lemma passed_call (p o : string) (lines : list string) :
  passed (Popen (request_for p o) :: map Printed lines) = [p].
Proof.
  unfold passed. simpl. f_equal.
  induction lines; simpl; auto.
Qed.

(** C10: the test of the script is a case-sensitive suffix check on the
    whole file name.  It holds of a name exactly when the name ends
    with one of the six lower-case extensions, whatever comes before
    (nothing, as in [.vert], or more dots, as in [a.tar.vert]), and
    not of [X.VERT].  A file alone in the directory is passed to the
    invoker if its name passes the test and not otherwise, whatever the
    system and the console.  In every run on every tree a file whose
    last five characters are anything but one of the six extensions,
    such as [X.VERT], is not passed; every file the walk lists whose
    name passes the test is among the files the loops hand over, and
    the run passes them in order, all of them when it returns. *)
Theorem extension_test_is_exact_suffix sys console :
  (forall name,
     endswith_any name [".vert"; ".frag"; ".comp"; ".geom"; ".tesc"; ".tese"] = true
     <-> recognized name)
  /\ (endswith_any ".vert" extensions = true
      /\ endswith_any "a.tar.vert" extensions = true
      /\ endswith_any "X.VERT" extensions = false)
  /\ (forall directory name,
        passed (run_trace sys console
                  (only directory (Dir [(name, File)])) directory)
        = if endswith_any name
               [".vert"; ".frag"; ".comp"; ".geom"; ".tesc"; ".tese"]
          then [join directory name]
          else [])
  /\ (forall fs directory u dir name,
        String.length u = 5 -> ~ In u extensions -> has_suffix name u ->
        ~ In (join dir name) (passed (run_trace sys console fs directory)))
  /\ (forall fs directory root dirs files file,
        In (root, dirs, files) (os_walk fs directory) ->
        In file files ->
        recognized file ->
        In (join root file) (matched fs directory))
  /\ (forall fs directory,
        exists k,
          passed (run_trace sys console fs directory)
          = firstn k (matched fs directory)
          /\ (run_result sys console fs directory = Returned tt ->
              passed (run_trace sys console fs directory)
              = matched fs directory)).
Proof.
  split; [exact recognized_spec|].
  split; [repeat split|].
  split; [|split; [|split]].
  - intros directory name. unfold run_trace.
    rewrite compile_shaders_in_directory_flat.
    unfold matched, os_walk, only. rewrite String.eqb_refl.
    change (matched_in (walk directory (Dir [(name, File)])))
      with (map (join directory)
              (filter (fun file => endswith_any file extensions) [name])
            ++ [])%list.
    rewrite app_nil_r. cbn [filter].
    change (endswith_any name
              [".vert"; ".frag"; ".comp"; ".geom"; ".tesc"; ".tese"])
      with (endswith_any name extensions).
    destruct (endswith_any name extensions); [|reflexivity].
    cbn [map for_each]. unfold bind, job.
    destruct (compile_shader_shape sys console [] (join directory name)
                (join directory name ++ ".spv")) as (res & lines & H & _).
    rewrite H. destruct res as [[]|e]; apply passed_call.
  - intros fs directory u dir name Hlen Hnot Hsuf Hin.
    unfold run_trace in Hin.
    destruct (compile_shaders_in_directory sys console fs directory [])
      as [res tr] eqn:Hrun.
    destruct (directory_passed _ _ _ _ _ _ Hrun) as (k & Hk & _).
    simpl in Hin. rewrite Hk in Hin. apply in_firstn in Hin.
    apply matched_recognized in Hin as (ext & Hext & Hpath).
    apply Hnot.
    assert (Hu : has_suffix (join dir name) u).
    { apply has_suffix_trans with name; [apply join_suffix | assumption]. }
    rewrite (has_suffix_same_length _ _ _ Hu Hpath); [assumption|].
    rewrite Hlen. symmetry. now apply extension_length.
  - intros fs directory root dirs files file Htriple Hfile Hrec.
    unfold matched, matched_in. apply in_flat_map.
    exists (root, dirs, files). split; [assumption|].
    apply in_map, filter_In. split; [assumption | now apply recognized_spec].
  - intros fs directory. unfold run_trace, run_result.
    destruct (compile_shaders_in_directory sys console fs directory [])
      as [res tr] eqn:Hrun.
    destruct (directory_passed _ _ _ _ _ _ Hrun) as (k & Hk & Hall).
    exists k. split; assumption.
Qed.

Lemma extension_test_is_exact_suffix_witness :
  ~ In "shader/X.VERT"
       (passed (run_trace (stub 0 []) utf8_console
                  (only "shader" odd_names) "shader"))
  /\ In "shader/a.tar.vert" (matched (only "shader" odd_names) "shader")
  /\ passed (run_trace missing_compiler utf8_console
               (only "shader" (Dir [(".vert", File)])) "shader")
     = ["shader/.vert"].
Proof.
  destruct (extension_test_is_exact_suffix (stub 0 []) utf8_console)
    as (_ & _ & _ & Hnever & Hhanded & _).
  split; [|split].
  - apply (Hnever (only "shader" odd_names) "shader" ".VERT" "shader" "X.VERT").
    + reflexivity.
    + unfold extensions. simpl. intuition discriminate.
    + now exists "X".
  - apply (Hhanded (only "shader" odd_names) "shader" "shader"
             (dirs_of [("X.VERT", File); (".vert", File); ("a.tar.vert", File);
                       ("d.comp", Unwalked []); ("vert", File)])
             (nondirs_of [("X.VERT", File); (".vert", File); ("a.tar.vert", File);
                          ("d.comp", Unwalked []); ("vert", File)])
             "a.tar.vert").
    + left; reflexivity.
    + right; right; left; reflexivity.
    + apply recognized_spec. reflexivity.
  - exact (proj1 (proj2 (proj2 (extension_test_is_exact_suffix
                                  missing_compiler utf8_console)))
             "shader" ".vert").
Defined.

End Claims.

(** * Further properties of the script *)

(** ** Facts about loops over matched files *)

Module LoopFacts.
Import StringFacts WalkFacts PathFacts RunFacts DirectoryFacts.

(** A loop that raises stops right after the request of some file of
    the list, for one of the reasons a call raises. *)
Lemma for_each_job_raised sys console (l : list string) :
  forall tr e tr',
    for_each l (job sys console) tr = (Raised e, tr') ->
    exists tr1 p,
      In p l
      /\ tr' = (tr1 ++ [Popen (request_for p (p ++ ".spv"))])%list
      /\ raised_because sys console tr1 p (p ++ ".spv") e.
Proof.
  induction l as [|p l IH]; intros tr e tr' Hrun; simpl in Hrun.
  - discriminate Hrun.
  - unfold bind, job at 1 in Hrun.
    destruct (compile_shader_cases sys console tr p (p ++ ".spv"))
      as [(line & H)|(e' & H & Hcause)]; rewrite H in Hrun.
    + apply IH in Hrun as (tr1 & q & Hq & Hrest).
      exists tr1, q. split; [now right | exact Hrest].
    + injection Hrun as <- <-. exists tr, p.
      split; [now left|]. now split.
Qed.

(** The lines and the requests of a loop, counted: as many new lines
    as new requests when the loop returns, one line fewer when it
    raises. *)
Lemma for_each_job_counts sys console (l : list string) :
  forall tr res tr',
    for_each l (job sys console) tr = (res, tr') ->
    exists n,
      length (invocations tr') = length (invocations tr) + n
      /\ match res with
         | Returned _ => length (printed tr') = length (printed tr) + n
         | Raised _ => S (length (printed tr')) = length (printed tr) + n
         end.
Proof.
  induction l as [|p l IH]; intros tr res tr' Hrun; simpl in Hrun.
  - injection Hrun as <- <-. exists 0. simpl. lia.
  - unfold bind, job at 1 in Hrun.
    destruct (compile_shader_cases sys console tr p (p ++ ".spv"))
      as [(line & H)|(e' & H & _)]; rewrite H in Hrun.
    + apply IH in Hrun as (n & Hn & Hres). exists (S n).
      rewrite invocations_app in Hn. rewrite printed_app in Hres.
      rewrite length_app in Hn, Hres. simpl in Hn, Hres.
      split; [lia|]. destruct res; lia.
    + injection Hrun as <- <-. exists 1.
      rewrite invocations_app, printed_app, !length_app. simpl. lia.
Qed.

End LoopFacts.

(** ** What ends a run, and what a run shows *)

Module Properties.
Import StringFacts WalkFacts PathFacts RunFacts DirectoryFacts LoopFacts.

(** X1: a run that ends in an exception ends right after the request
    for some shader file the walk lists, and the exception comes from
    one of three places: starting the child (the system's error); or
    decoding the error bytes of a child that left with a non-zero
    status, when they are not UTF-8 (the decoding error); or printing
    the line of that file, the success line after a status of zero or
    the diagnostic after another status (the encoding error, or the
    error of a stream that is closed or broken).  So the exception is
    an [OSError], a [UnicodeDecodeError] or a [UnicodeEncodeError];
    [CalledProcessError] itself never leaves the script. *)
Theorem escaping_exceptions sys console fs directory e tr :
  compile_shaders_in_directory sys console fs directory [] = (Raised e, tr) ->
  ((exists oe, e = OSError oe) \/ e = UnicodeDecodeError \/ e = UnicodeEncodeError)
  /\ exists tr1 p,
       listed_shader_file_under fs directory p
       /\ tr = (tr1 ++ [Popen (request_for p (p ++ ".spv"))])%list
       /\ ((exists oe, e = OSError oe
                       /\ sys tr1 (request_for p (p ++ ".spv")) = NotStarted oe)
           \/ (e = UnicodeDecodeError
               /\ exists rc out err,
                    sys tr1 (request_for p (p ++ ".spv")) = Exited rc out err
                    /\ rc <> 0%Z /\ utf8_valid err = false)
           \/ (exists line,
                 ((exists out err,
                     sys tr1 (request_for p (p ++ ".spv")) = Exited 0 out err
                     /\ line = "Compiled " ++ p ++ " -> " ++ p ++ ".spv")
                  \/ (exists rc out err,
                        sys tr1 (request_for p (p ++ ".spv")) = Exited rc out err
                        /\ rc <> 0%Z /\ utf8_valid err = true
                        /\ line = "Failed to compile " ++ p ++ ": "
                                  ++ string_of_list_byte err))
                 /\ print_error (console tr line) = Some e)).
Proof.
  rewrite compile_shaders_in_directory_flat. intros Hrun.
  apply for_each_job_raised in Hrun as (tr1 & p & Hp & Htr & Hcause).
  split.
  - destruct Hcause as [(oe & -> & _)|[(-> & _)|(line & _ & Hc)]].
    + left. now exists oe.
    + right; now left.
    + destruct (console _ line); simpl in Hc;
        [discriminate Hc | injection Hc as <-; right; now right
        | injection Hc as <-; left; now exists e0].
  - exists tr1, p. split; [now apply in_matched|]. split; [exact Htr|].
    rewrite Htr. exact Hcause.
Qed.

Lemma escaping_exceptions_witness :
  compile_shaders_in_directory (stub 0 []) closed_pipe
    (only "shader" two_shaders) "shader" []
  = (Raised (OSError BrokenPipeError),
     [Popen (request_for "shader/a.frag" "shader/a.frag.spv")])
  /\ exists tr1 p,
       listed_shader_file_under (only "shader" two_shaders) "shader" p
       /\ [Popen (request_for "shader/a.frag" "shader/a.frag.spv")]
          = (tr1 ++ [Popen (request_for p (p ++ ".spv"))])%list.
Proof.
  split; [reflexivity|].
  destruct (escaping_exceptions (stub 0 []) closed_pipe
              (only "shader" two_shaders)
              "shader" (OSError BrokenPipeError) _ eq_refl)
    as (_ & tr1 & p & Hp & Htr & _).
  exists tr1, p. now split.
Defined.

(** X2: the console shows one line for each request of a run that
    returns, and in a run that ends in an exception one line fewer: the
    file whose request raised has no line. *)
Theorem lines_and_requests sys console fs directory res tr :
  compile_shaders_in_directory sys console fs directory [] = (res, tr) ->
  match res with
  | Returned _ => length (printed tr) = length (invocations tr)
  | Raised _ => S (length (printed tr)) = length (invocations tr)
  end.
Proof.
  rewrite compile_shaders_in_directory_flat. intros Hrun.
  apply for_each_job_counts in Hrun as (n & Hinv & Hres).
  simpl in Hinv, Hres. rewrite Hinv. destruct res; lia.
Qed.

Lemma lines_and_requests_witness :
  compile_shaders_in_directory (stub 1 [xff]) utf8_console
    (only "shader" two_shaders) "shader" []
  = (Raised UnicodeDecodeError,
     [Popen (request_for "shader/a.frag" "shader/a.frag.spv")])
  /\ S (length (printed [Popen (request_for "shader/a.frag" "shader/a.frag.spv")]))
     = length (invocations [Popen (request_for "shader/a.frag" "shader/a.frag.spv")]).
Proof.
  split; [reflexivity|].
  exact (lines_and_requests (stub 1 [xff]) utf8_console
           (only "shader" two_shaders) "shader"
           (Raised UnicodeDecodeError) _ eq_refl).
Defined.





(** ** Compilers that always fail, and compilers that behave *)

Lemma for_each_job_all_nonzero sys console err (l : list string) :
  utf8_valid err = true ->
  (forall tr r, exists rc out, sys tr r = Exited rc out err /\ rc <> 0%Z) ->
  (forall tr p, In p l ->
                console tr (failure_line p (string_of_list_byte err)) = Written) ->
  forall tr,
    for_each l (job sys console) tr
    = (Returned tt,
       (tr ++ flat_map call_events
                (map (fun p => (p, [failure_line p (string_of_list_byte err)])) l))%list).
Proof.
  intros Hv Hfail. induction l as [|p l IH]; intros Hc tr; simpl.
  - unfold ret. now rewrite app_nil_r.
  - unfold bind, job at 1.
    destruct (Hfail tr (request_for p (p ++ ".spv"))) as (rc & out & H & Hrc).
    rewrite (compile_shader_nonzero _ _ _ _ _ _ _ _ H Hrc Hv
               (Hc _ p (or_introl eq_refl))).
    rewrite IH, <- app_assoc; [reflexivity|].
    intros tr' q Hq. apply Hc. now right.
Qed.

Lemma printed_failure_reports text (l : list string) :
  printed (flat_map call_events (map (fun p => (p, [failure_line p text])) l))
  = map (fun p => failure_line p text) l.
Proof. induction l as [|p l IH]; simpl; [reflexivity | now rewrite IH]. Qed.

Lemma passed_failure_reports text (l : list string) :
  passed (flat_map call_events (map (fun p => (p, [failure_line p text])) l)) = l.
Proof.
  unfold passed. induction l as [|p l IH]; simpl; [reflexivity|].
  f_equal. exact IH.
Qed.

(** X5: with a compiler that exits with a non-zero status every time,
    writing the same UTF-8 text to its error stream, and a console that
    writes the diagnostic of every matched file, the run returns, every
    matched file is passed in the order of the walk, and the console
    shows for each of them, in that order, the line
    [Failed to compile <path>: <text>] and nothing else. *)
Theorem failing_compiler_reports_every_file sys console err fs directory :
  utf8_valid err = true ->
  (forall tr r, exists rc out, sys tr r = Exited rc out err /\ rc <> 0%Z) ->
  (forall tr p, In p (matched fs directory) ->
                console tr ("Failed to compile " ++ p ++ ": "
                            ++ string_of_list_byte err)
                = Written) ->
  run_result sys console fs directory = Returned tt
  /\ passed (run_trace sys console fs directory) = matched fs directory
  /\ printed (run_trace sys console fs directory)
     = map (fun p => "Failed to compile " ++ p ++ ": " ++ string_of_list_byte err)
           (matched fs directory).
Proof.
  intros Hv Hfail Hc. unfold run_result, run_trace.
  rewrite compile_shaders_in_directory_flat,
    (for_each_job_all_nonzero sys console err _ Hv Hfail Hc).
  simpl. split; [reflexivity|]. split.
  - apply passed_failure_reports.
  - apply printed_failure_reports.
Qed.

Lemma failing_compiler_reports_every_file_witness :
  (utf8_valid ERR = true
   /\ (forall tr r, exists rc out, stub 1 ERR tr r = Exited rc out ERR /\ rc <> 0%Z)
   /\ (forall tr p, In p (matched (only "shader" scenario) "shader") ->
                    utf8_console tr ("Failed to compile " ++ p ++ ": "
                                     ++ string_of_list_byte ERR) = Written))
  /\ run_result (stub 1 ERR) utf8_console (only "shader" scenario) "shader"
     = Returned tt
  /\ passed (run_trace (stub 1 ERR) utf8_console (only "shader" scenario) "shader")
     = ["shader/a/x.vert"; "shader/a/b/y.frag"]
  /\ printed (run_trace (stub 1 ERR) utf8_console (only "shader" scenario) "shader")
     = ["Failed to compile shader/a/x.vert: ERR";
        "Failed to compile shader/a/b/y.frag: ERR"].
Proof.
  assert (Hfail : forall tr r,
            exists rc out, stub 1 ERR tr r = Exited rc out ERR /\ rc <> 0%Z).
  { intros tr r. exists 1%Z, []. split; [reflexivity | discriminate]. }
  assert (Hc : forall tr p, In p (matched (only "shader" scenario) "shader") ->
                 utf8_console tr ("Failed to compile " ++ p ++ ": "
                                  ++ string_of_list_byte ERR) = Written).
  { intros tr p [<-|[<-|[]]]; reflexivity. }
  split; [split; [reflexivity | split; [exact Hfail | exact Hc]]|].
  exact (failing_compiler_reports_every_file (stub 1 ERR) utf8_console ERR
           (only "shader" scenario) "shader" eq_refl Hfail Hc).
Defined.

(** X6: when every child starts, and leaves with status zero or with
    error bytes that are UTF-8, and the console writes every line,
    the run returns, every matched file has been passed, once each in the
    order of the walk, and the console has one line for each of them. *)
Theorem well_behaved_compiler_run sys console fs directory :
  (forall tr r,
     match sys tr r with
     | Exited rc _ err => rc = 0%Z \/ utf8_valid err = true
     | NotStarted _ => False
     end) ->
  (forall tr line, console tr line = Written) ->
  run_result sys console fs directory = Returned tt
  /\ passed (run_trace sys console fs directory) = matched fs directory
  /\ length (printed (run_trace sys console fs directory))
     = length (matched fs directory).
Proof.
  intros Hsys Hconsole.
  pose proof (run_returns sys console fs directory Hsys Hconsole) as Hres.
  unfold run_result, run_trace in *.
  destruct (compile_shaders_in_directory sys console fs directory [])
    as [res tr] eqn:Hrun.
  simpl in *. subst res.
  destruct (directory_passed _ _ _ _ _ _ Hrun) as (k & _ & Hall).
  pose proof (lines_count := for_each_job_counts sys console (matched fs directory) []).
  rewrite compile_shaders_in_directory_flat in Hrun.
  destruct (lines_count _ _ Hrun) as (n & Hinv & Hpr). simpl in Hinv, Hpr.
  split; [reflexivity|]. split; [now apply Hall|].
  rewrite Hpr, <- Hinv, <- (Hall eq_refl). unfold passed. now rewrite length_map.
Qed.

Lemma well_behaved_compiler_run_witness :
  ((forall tr r,
      match picky_compiler tr r with
      | Exited rc _ err => rc = 0%Z \/ utf8_valid err = true
      | NotStarted _ => False
      end)
   /\ forall tr line, lenient_console tr line = Written)
  /\ run_result picky_compiler lenient_console (only "shader" scenario) "shader"
     = Returned tt
  /\ passed (run_trace picky_compiler lenient_console
               (only "shader" scenario) "shader")
     = ["shader/a/x.vert"; "shader/a/b/y.frag"].
Proof.
  assert (H : forall tr r,
            match picky_compiler tr r with
            | Exited rc _ err => rc = 0%Z \/ utf8_valid err = true
            | NotStarted _ => False
            end).
  { intros tr r. unfold picky_compiler.
    destruct (endswith (source_of r) ".frag"); [right | left]; reflexivity. }
  assert (Hc : forall tr line, lenient_console tr line = Written) by reflexivity.
  split; [split; [exact H | exact Hc]|].
  destruct (well_behaved_compiler_run picky_compiler lenient_console
              (only "shader" scenario) "shader" H Hc) as (Hres & Hpassed & _).
  split; [exact Hres | exact Hpassed].
Defined.

(** ** Outputs, and where the paths lie *)

(** No name that ends in [.spv] ends with one of the six extensions. *)
Lemma spv_not_recognized (p : string) : ~ recognized (p ++ ".spv").
Proof.
  intros (ext & Hext & Hsuf).
  assert (Hspv : has_suffix (p ++ ".spv") ".spv") by now exists p.
  assert (Htail : forall c tail,
            ext = String c tail -> String.length tail = 4 -> tail = ".spv").
  { intros c tail -> Hlen. symmetry.
    apply (has_suffix_same_length (p ++ ".spv")); [assumption | | now rewrite Hlen].
    apply has_suffix_trans with (String c tail); [assumption|].
    now exists (String c ""). }
  unfold extensions in Hext. simpl in Hext.
  destruct Hext as [<-|[<-|[<-|[<-|[<-|[<-|[]]]]]]];
    match goal with
    | H : forall c tail, String ?a ?t = _ -> _ |- _ =>
        specialize (H a t eq_refl eq_refl); discriminate H
    end.
Qed.

(** X7: the script never takes an output for a source.  A name that
    ends in [.spv] fails the test, and the output path of a request is
    never the source path of a request, in the same run or in any other
    run on any tree: running the script again does not compile what it
    produced. *)
Theorem outputs_are_never_sources :
  (forall name,
     endswith_any (name ++ ".spv")
       [".vert"; ".frag"; ".comp"; ".geom"; ".tesc"; ".tese"] = false)
  /\ (forall sys console fs directory sys' console' fs' directory',
        Forall (fun r =>
                  Forall (fun r' => source_of r' <> output_of r)
                         (invocations (run_trace sys' console' fs' directory')))
               (invocations (run_trace sys console fs directory))).
Proof.
  split.
  - intros name.
    destruct (endswith_any (name ++ ".spv") _) eqn:E; [|reflexivity].
    apply recognized_spec in E. now apply spv_not_recognized in E.
  - intros sys console fs directory sys' console' fs' directory'.
    apply Forall_forall. intros r Hr. apply Forall_forall. intros r' Hr'.
    unfold run_trace in Hr, Hr'.
    destruct (compile_shaders_in_directory sys console fs directory [])
      as [res tr] eqn:Hrun.
    destruct (compile_shaders_in_directory sys' console' fs' directory' [])
      as [res' tr'] eqn:Hrun'.
    destruct (directory_request _ _ _ _ _ _ _ Hrun Hr) as (p & _ & ->).
    destruct (directory_request _ _ _ _ _ _ _ Hrun' Hr') as (q & Hq & ->).
    unfold source_of, output_of. simpl. intros Heq. subst q.
    apply matched_recognized in Hq. now apply spv_not_recognized in Hq.
Qed.

Lemma startswith_append (a b : string) : startswith (a ++ b) a = true.
Proof.
  unfold startswith. induction a as [|c a IH]; simpl; [now destruct b|].
  destruct (ascii_dec c c) as [_|Hne]; [exact IH | now destruct Hne].
Qed.

(** In a well-formed tree every matched path begins with the base of
    the directory. *)
Lemma matched_under_base fs directory p :
  (forall n, fs directory = Some n -> well_formed n) ->
  In p (matched fs directory) ->
  exists rel, p = base directory ++ rel.
Proof.
  intros Hwf. unfold matched, os_walk.
  destruct (fs directory) as [n|]; [|intros []].
  rewrite (matched_in_walk_rel n (Hwf n eq_refl)).
  intros Hin. apply in_map_iff in Hin as (rel & <- & _). now exists rel.
Qed.

(** X8: in a tree as a file system has it (plain names, none twice in
    a directory) every source path and every output path of a run
    begins with the directory given, followed by the separator unless
    it is there already; for the main block that is [shader/].  The
    script reads and writes nowhere else. *)
Theorem paths_stay_under_directory sys console fs :
  (forall directory,
     (forall n, fs directory = Some n -> well_formed n) ->
     Forall (fun r => startswith (source_of r) (base directory) = true
                      /\ startswith (output_of r) (base directory) = true)
            (invocations (run_trace sys console fs directory)))
  /\ ((forall n, fs "shader" = Some n -> well_formed n) ->
      Forall (fun r => startswith (source_of r) "shader/" = true
                       /\ startswith (output_of r) "shader/" = true)
             (invocations (snd (main sys console fs [])))).
Proof.
  assert (H : forall directory,
            (forall n, fs directory = Some n -> well_formed n) ->
            Forall (fun r => startswith (source_of r) (base directory) = true
                             /\ startswith (output_of r) (base directory) = true)
                   (invocations (run_trace sys console fs directory))).
  { intros directory Hwf. apply Forall_forall. intros r Hr.
    unfold run_trace in Hr.
    destruct (compile_shaders_in_directory sys console fs directory [])
      as [res tr] eqn:Hrun.
    destruct (directory_request _ _ _ _ _ _ _ Hrun Hr) as (p & Hp & ->).
    destruct (matched_under_base _ _ _ Hwf Hp) as (rel & ->).
    simpl. split; [apply startswith_append|].
    rewrite append_assoc. apply startswith_append. }
  split; [exact H|].
  intros Hwf. exact (H "shader" Hwf).
Qed.

Lemma paths_stay_under_directory_witness :
  (forall n, only "shader" scenario "shader" = Some n -> well_formed n)
  /\ Forall (fun r => startswith (source_of r) "shader/" = true
                      /\ startswith (output_of r) "shader/" = true)
            [request_for "shader/a/x.vert" "shader/a/x.vert.spv";
             request_for "shader/a/b/y.frag" "shader/a/b/y.frag.spv"].
Proof.
  assert (Hwf : forall n, only "shader" scenario "shader" = Some n -> well_formed n).
  { intros n Heq. injection Heq as <-. unfold scenario.
    repeat (first
      [ apply wf_File
      | apply wf_Dir; [simpl; repeat constructor; simpl; intuition discriminate |]
      | intros name child Hin; simpl in Hin;
        repeat (destruct Hin as [Hin|Hin];
                [injection Hin as <- <-; split; [reflexivity|] |]);
        [.. | destruct Hin] ]). }
  split; [exact Hwf|].
  exact (proj2 (paths_stay_under_directory picky_compiler utf8_console
                  (only "shader" scenario)) Hwf).
Defined.

(** ** Text of the ASCII range *)

Lemma utf8_valid_ascii (bs : list byte) :
  ascii_only bs = true -> utf8_valid bs = true.
Proof.
  unfold utf8_valid, ascii_only.
  induction bs as [|b bs IH]; simpl; [reflexivity|].
  intros H. apply andb_true_iff in H as [Hb Hbs].
  rewrite Hb. now apply IH.
Qed.

Lemma list_byte_of_string_append (a b : string) :
  list_byte_of_string (a ++ b)
  = (list_byte_of_string a ++ list_byte_of_string b)%list.
Proof.
  unfold list_byte_of_string.
  induction a as [|c a IH]; simpl; [reflexivity | now rewrite IH].
Qed.

Lemma ascii_text_append (a b : string) :
  ascii_text (a ++ b) = ascii_text a && ascii_text b.
Proof.
  unfold ascii_text, ascii_only.
  rewrite list_byte_of_string_append. apply forallb_app.
Qed.

Lemma ascii_text_of_bytes (bs : list byte) :
  ascii_text (string_of_list_byte bs) = ascii_only bs.
Proof.
  unfold ascii_text. now rewrite list_byte_of_string_of_list_byte.
Qed.

(** X9: error text of the ASCII range about a path of the ASCII range
    is always reported on a console that writes ASCII text: when the
    child leaves with a non-zero status and only bytes below 128 on its
    error stream, the call prints [Failed to compile <path>: <text>]
    with that text and returns. *)
Theorem ascii_error_text_is_reported sys console tr p o rc out err :
  (forall tr line, ascii_text line = true -> console tr line = Written) ->
  ascii_text p = true ->
  ascii_only err = true ->
  sys tr (request_for p o) = Exited rc out err ->
  rc <> 0%Z ->
  compile_shader sys console p o tr
  = (Returned tt,
     (tr ++ [Popen (request_for p o);
             Printed ("Failed to compile " ++ p ++ ": " ++ string_of_list_byte err)])%list).
Proof.
  intros Hconsole Hp Herr Hsys Hrc.
  apply (compile_shader_nonzero sys console tr p o rc out err Hsys Hrc
           (utf8_valid_ascii err Herr)).
  apply Hconsole. unfold failure_line.
  rewrite !ascii_text_append, Hp, ascii_text_of_bytes, Herr. reflexivity.
Qed.

Lemma ascii_error_text_is_reported_witness :
  ((forall tr line, ascii_text line = true -> ascii_console tr line = Written)
   /\ ascii_text "a.vert" = true
   /\ ascii_only ERR = true
   /\ stub 2 ERR [] (request_for "a.vert" "a.vert.spv") = Exited 2 [] ERR
   /\ 2%Z <> 0%Z)
  /\ compile_shader (stub 2 ERR) ascii_console "a.vert" "a.vert.spv" []
     = (Returned tt,
        [Popen (request_for "a.vert" "a.vert.spv");
         Printed "Failed to compile a.vert: ERR"]).
Proof.
  assert (Hne : 2%Z <> 0%Z) by discriminate.
  assert (Hc : forall tr line,
            ascii_text line = true -> ascii_console tr line = Written).
  { intros tr line H. unfold ascii_console. now rewrite H. }
  split; [repeat split; [exact Hc | exact Hne]|].
  exact (ascii_error_text_is_reported (stub 2 ERR) ascii_console [] "a.vert"
           "a.vert.spv" 2%Z [] ERR Hc eq_refl eq_refl eq_refl Hne).
Defined.

(** ** The success line *)

(** X12: a call of [compile_shader] prints the line
    [Compiled <source> -> <output>] if and only if the child exited
    with status zero and the console writes that line; then this is the
    only line of the call and the call returns. *)
Theorem success_line_printed_iff sys console tr p o res new :
  compile_shader sys console p o tr = (res, (tr ++ new)%list) ->
  (In ("Compiled " ++ p ++ " -> " ++ o) (printed new)
   <-> (exists out err, sys tr (request_for p o) = Exited 0 out err)
       /\ console (tr ++ [Popen (request_for p o)])%list
            ("Compiled " ++ p ++ " -> " ++ o) = Written)
  /\ (In ("Compiled " ++ p ++ " -> " ++ o) (printed new) ->
      res = Returned tt
      /\ new = [Popen (request_for p o); Printed ("Compiled " ++ p ++ " -> " ++ o)]).
Proof.
  fold (success_line p o). intros Hrun.
  destruct (sys tr (request_for p o)) as [rc out err|e] eqn:Hsys.
  - destruct (Z.eq_dec rc 0) as [->|Hrc].
    + destruct (print_error_cases
                  (console (tr ++ [Popen (request_for p o)])%list (success_line p o)))
        as [Hc|(e & Hc)].
      * rewrite (compile_shader_zero _ _ _ _ _ _ _ Hsys Hc) in Hrun.
        injection Hrun as <- Hnew. apply app_inv_head in Hnew. subst new.
        split; [|intros _; now split].
        split; [intros _; split; [now exists out, err | exact Hc]
               | intros _; simpl; auto].
      * rewrite (compile_shader_zero_unprinted _ _ _ _ _ _ _ _ Hsys Hc) in Hrun.
        injection Hrun as <- Hnew. apply app_inv_head in Hnew. subst new.
        split; [|intros []].
        split; [intros [] | intros [_ H]; rewrite H in Hc; discriminate Hc].
    + assert (Hno : ~ exists out' err', Exited rc out err = Exited 0 out' err').
      { intros (out' & err' & Heq). injection Heq as -> _ _. now apply Hrc. }
      assert (Hnot : ~ In (success_line p o) (printed new)).
      { rewrite compile_shader_steps, Hsys in Hrun.
        apply Z.eqb_neq in Hrc. rewrite Hrc in Hrun.
        unfold bind, decode in Hrun.
        destruct (utf8_valid err).
        - unfold ret, print in Hrun.
          destruct (console (tr ++ [Popen (request_for p o)])%list
                      (failure_line p (string_of_list_byte err)));
            injection Hrun as _ Hnew;
            [rewrite <- app_assoc in Hnew|..];
            apply app_inv_head in Hnew; subst new;
            [intros [Heq|[]]; discriminate Heq | intros [] | intros []].
        - unfold raise in Hrun. injection Hrun as _ Hnew.
          apply app_inv_head in Hnew. subst new. intros []. }
      split; [|intros H; now destruct Hnot].
      split; [intros H; now destruct Hnot | intros [H _]; now destruct Hno].
  - rewrite (compile_shader_not_started _ _ _ _ _ _ Hsys) in Hrun.
    injection Hrun as <- Hnew. apply app_inv_head in Hnew. subst new.
    split; [|intros []].
    split; [intros [] | intros [(out & err & H) _]; discriminate H].
Qed.

Lemma success_line_printed_iff_witness :
  compile_shader (stub 0 []) utf8_console "a.vert" "a.vert.spv" []
  = (Returned tt,
     ([] ++ [Popen (request_for "a.vert" "a.vert.spv");
             Printed "Compiled a.vert -> a.vert.spv"])%list)
  /\ (In "Compiled a.vert -> a.vert.spv"
         (printed [Popen (request_for "a.vert" "a.vert.spv");
                   Printed "Compiled a.vert -> a.vert.spv"])
      <-> (exists out err,
             stub 0 [] [] (request_for "a.vert" "a.vert.spv") = Exited 0 out err)
          /\ utf8_console [Popen (request_for "a.vert" "a.vert.spv")]
               "Compiled a.vert -> a.vert.spv" = Written).
Proof.
  split; [reflexivity|].
  exact (proj1 (success_line_printed_iff (stub 0 []) utf8_console [] "a.vert"
                  "a.vert.spv" (Returned tt)
                  [Popen (request_for "a.vert" "a.vert.spv");
                   Printed "Compiled a.vert -> a.vert.spv"] eq_refl)).
Defined.

(** ** Files the test rejects *)

Lemma is_dir_shaders_only (n : node) : is_dir (shaders_only n) = is_dir n.
Proof. destruct n; reflexivity. Qed.

Lemma shaders_only_Dir (entries : list (string * node)) :
  shaders_only (Dir entries) = Dir (prune entries).
Proof. reflexivity. Qed.

Lemma nondirs_of_cons (name : string) (child : node) (l : list (string * node)) :
  nondirs_of ((name, child) :: l)
  = if is_dir child then nondirs_of l else name :: nondirs_of l.
Proof. unfold nondirs_of. simpl. now destruct (is_dir child). Qed.

Lemma matched_files_prune (l : list (string * node)) :
  filter (fun file => endswith_any file extensions) (nondirs_of (prune l))
  = filter (fun file => endswith_any file extensions) (nondirs_of l).
Proof.
  induction l as [|[name child] l IH]; [reflexivity|].
  rewrite nondirs_of_cons.
  change (prune ((name, child) :: l))
    with (if is_dir child then (name, shaders_only child) :: prune l
          else if endswith_any name extensions
               then (name, child) :: prune l
               else prune l).
  destruct (is_dir child) eqn:Hdir.
  - rewrite nondirs_of_cons, is_dir_shaders_only, Hdir. exact IH.
  - destruct (endswith_any name extensions) eqn:Htest.
    + rewrite nondirs_of_cons, Hdir. cbn [filter]. rewrite Htest. now rewrite IH.
    + cbn [filter]. rewrite Htest. exact IH.
Qed.

Lemma matched_walk_dirs_prune (top : string) (l : list (string * node)) :
  Forall (fun e => forall top',
            matched_in (walk top' (shaders_only (snd e)))
            = matched_in (walk top' (snd e))) l ->
  matched_in (walk_dirs top (prune l)) = matched_in (walk_dirs top l).
Proof.
  induction l as [|[name child] l IHl]; intros H; [reflexivity|].
  apply Forall_cons_iff in H as [Hchild Hl]. simpl in Hchild.
  specialize (IHl Hl).
  change (prune ((name, child) :: l))
    with (if is_dir child then (name, shaders_only child) :: prune l
          else if endswith_any name extensions
               then (name, child) :: prune l
               else prune l).
  simpl walk_dirs at 2.
  destruct (is_dir child) eqn:Hdir.
  - simpl walk_dirs. rewrite is_dir_shaders_only, Hdir.
    now rewrite !matched_in_app, Hchild, IHl.
  - destruct (endswith_any name extensions); [|exact IHl].
    simpl walk_dirs. rewrite Hdir. exact IHl.
Qed.

(** Dropping the files the test rejects leaves the matched files as
    they are. *)
Lemma matched_shaders_only (n : node) :
  forall top, matched_in (walk top (shaders_only n)) = matched_in (walk top n).
Proof.
  induction n as [|hidden _|entries IH] using node_induction; intros top;
    [reflexivity | reflexivity |].
  rewrite shaders_only_Dir, !walk_Dir.
  change (matched_in ((top, dirs_of (prune entries), nondirs_of (prune entries))
                        :: walk_dirs top (prune entries)))
    with (map (join top)
            (filter (fun file => endswith_any file extensions)
               (nondirs_of (prune entries)))
          ++ matched_in (walk_dirs top (prune entries)))%list.
  change (matched_in ((top, dirs_of entries, nondirs_of entries)
                        :: walk_dirs top entries))
    with (map (join top)
            (filter (fun file => endswith_any file extensions)
               (nondirs_of entries))
          ++ matched_in (walk_dirs top entries))%list.
  now rewrite matched_files_prune, (matched_walk_dirs_prune top entries IH).
Qed.

(** X10: which files the script hands to the compiler, and in which
    order, does not depend on the files whose names fail the test: on
    the tree with all of them removed from every directory the walk
    lists, the matched files are the same; and when the system gives
    the same answers on both trees (a compiler whose outcome does not
    depend on the removed files), the run is the same, event for
    event. *)
Theorem rejected_files_change_nothing :
  (forall fs directory,
     matched (fun path => option_map shaders_only (fs path)) directory
     = matched fs directory)
  /\ (forall sys console fs directory tr,
        compile_shaders_in_directory sys console
          (fun path => option_map shaders_only (fs path)) directory tr
        = compile_shaders_in_directory sys console fs directory tr).
Proof.
  assert (H : forall fs directory,
            matched (fun path => option_map shaders_only (fs path)) directory
            = matched fs directory).
  { intros fs directory. unfold matched, os_walk.
    destruct (fs directory) as [n|]; simpl; [|reflexivity].
    apply matched_shaders_only. }
  split; [exact H|].
  intros sys console fs directory tr.
  now rewrite !compile_shaders_in_directory_flat, H.
Qed.

(** ** The walk as a descent *)

Lemma walked_dirs_of_cons (name : string) (child : node)
  (l : list (string * node)) :
  walked_dirs_of ((name, child) :: l)
  = match child with
    | Dir _ => name :: walked_dirs_of l
    | _ => walked_dirs_of l
    end.
Proof. unfold walked_dirs_of. simpl. now destruct child. Qed.

Lemma for_each_subdirectories sys console fs top (l : list (string * node)) :
  (forall sub entries,
     In (sub, Dir entries) l -> fs (join top sub) = Some (Dir entries)) ->
  forall tr,
    for_each (walked_dirs_of l)
      (fun sub => compile_shaders_in_directory sys console fs (join top sub)) tr
    = for_each (matched_in (walk_dirs top l)) (job sys console) tr.
Proof.
  induction l as [|[name child] l IH]; intros Hfs tr; [reflexivity|].
  assert (Hl : forall tr',
            for_each (walked_dirs_of l)
              (fun sub => compile_shaders_in_directory sys console fs (join top sub)) tr'
            = for_each (matched_in (walk_dirs top l)) (job sys console) tr').
  { apply IH. intros sub c Hin. apply Hfs. now right. }
  rewrite walked_dirs_of_cons.
  change (walk_dirs top ((name, child) :: l))
    with (if is_dir child
          then (walk (join top name) child ++ walk_dirs top l)%list
          else walk_dirs top l).
  destruct child as [|entries|hidden].
  - apply Hl.
  - change (is_dir (Dir entries)) with true. cbv beta iota zeta.
    set (below := walk (join top name) (Dir entries)).
    rewrite matched_in_app, for_each_app.
    change (for_each (name :: walked_dirs_of l)
              (fun sub => compile_shaders_in_directory sys console fs (join top sub)) tr)
      with (bind (compile_shaders_in_directory sys console fs (join top name))
              (fun _ => for_each (walked_dirs_of l)
                          (fun sub => compile_shaders_in_directory sys console fs
                                        (join top sub))) tr).
    unfold bind.
    rewrite compile_shaders_in_directory_flat. unfold matched, os_walk.
    rewrite (Hfs name entries (or_introl eq_refl)). fold below.
    destruct (for_each (matched_in below) (job sys console) tr)
      as [[[]|e] tr1]; [apply Hl | reflexivity].
  - change (is_dir (Unwalked hidden)) with true. cbv beta iota zeta.
    change (walk (join top name) (Unwalked hidden)) with
      (@nil (string * list string * list string)).
    apply Hl.
Qed.

(** X11: the run on a directory is the work on the directory's own
    matched files, in the order of the listing, followed by the runs on
    those of its subdirectories that can be listed and are not symbolic
    links, in the order of the listing, each from the events left by
    what came before; the first exception ends it all.  The other
    subdirectories are passed over, also when a run on them by their
    own path would find shaders. *)
Theorem run_descends sys console fs top entries :
  fs top = Some (Dir entries) ->
  (forall sub below,
     In (sub, Dir below) entries -> fs (join top sub) = Some (Dir below)) ->
  forall tr,
    compile_shaders_in_directory sys console fs top tr
    = (for_each (filter (fun file => endswith_any file
                           [".vert"; ".frag"; ".comp"; ".geom"; ".tesc"; ".tese"])
                        (nondirs_of entries))
         (fun file => compile_shader sys console (join top file)
                        (join top file ++ ".spv")) ;;
       for_each (walked_dirs_of entries)
         (fun sub => compile_shaders_in_directory sys console fs (join top sub))) tr.
Proof.
  intros Htop Hsub tr.
  rewrite compile_shaders_in_directory_flat. unfold matched, os_walk.
  rewrite Htop, walk_Dir.
  change (matched_in ((top, dirs_of entries, nondirs_of entries)
                        :: walk_dirs top entries))
    with (map (join top)
            (filter (fun file => endswith_any file extensions)
               (nondirs_of entries))
          ++ matched_in (walk_dirs top entries))%list.
  rewrite for_each_app. unfold bind.
  assert (Hown : forall l,
            for_each (map (join top) l) (job sys console) tr
            = for_each l
                (fun file => compile_shader sys console (join top file)
                               (join top file ++ ".spv"))
                tr).
  { clear. intros l. revert tr. induction l as [|x l IH]; intros tr; [reflexivity|].
    simpl. unfold bind, job at 1.
    destruct (compile_shader sys console (join top x) (join top x ++ ".spv") tr)
      as [[[]|e] tr1]; [apply IH | reflexivity]. }
  rewrite Hown.
  match goal with
  | |- match ?c with _ => _ end = match ?d with _ => _ end =>
      change d with c; destruct c as [[[]|e] tr1]
  end; [|reflexivity].
  symmetry. now apply for_each_subdirectories.
Qed.

Lemma run_descends_witness :
  (linked_fs "shader"
   = Some (Dir [("top.vert", File);
                ("sub", Dir [("s.frag", File)]);
                ("lnk", Unwalked [("a.vert", File)])])
   /\ forall sub below,
        In (sub, Dir below)
           [("top.vert", File);
            ("sub", Dir [("s.frag", File)]);
            ("lnk", Unwalked [("a.vert", File)])] ->
        linked_fs (join "shader" sub) = Some (Dir below))
  /\ compile_shaders_in_directory picky_compiler utf8_console linked_fs "shader" []
     = (for_each ["top.vert"]
          (fun file => compile_shader picky_compiler utf8_console
                         (join "shader" file) (join "shader" file ++ ".spv")) ;;
        for_each ["sub"]
          (fun sub => compile_shaders_in_directory picky_compiler utf8_console
                        linked_fs (join "shader" sub))) []
  /\ compile_shaders_in_directory picky_compiler utf8_console linked_fs "shader" []
     = (Returned tt,
        [Popen (request_for "shader/top.vert" "shader/top.vert.spv");
         Printed "Compiled shader/top.vert -> shader/top.vert.spv";
         Popen (request_for "shader/sub/s.frag" "shader/sub/s.frag.spv");
         Printed "Failed to compile shader/sub/s.frag: ERR"])
  /\ compile_shaders_in_directory picky_compiler utf8_console linked_fs
       "shader/lnk" []
     = (Returned tt,
        [Popen (request_for "shader/lnk/a.vert" "shader/lnk/a.vert.spv");
         Printed "Compiled shader/lnk/a.vert -> shader/lnk/a.vert.spv"]).
Proof.
  assert (Hsub : forall sub below,
            In (sub, Dir below)
               [("top.vert", File);
                ("sub", Dir [("s.frag", File)]);
                ("lnk", Unwalked [("a.vert", File)])] ->
            linked_fs (join "shader" sub) = Some (Dir below)).
  { intros sub below [Heq|[Heq|[Heq|[]]]]; try discriminate Heq.
    injection Heq as <- <-. reflexivity. }
  split; [split; [reflexivity | exact Hsub]|].
  split; [|split; reflexivity].
  exact (run_descends picky_compiler utf8_console linked_fs "shader"
           [("top.vert", File);
            ("sub", Dir [("s.frag", File)]);
            ("lnk", Unwalked [("a.vert", File)])] eq_refl Hsub []).
Defined.

End Properties.
